(** * seekr: the image ingestion core of [VisionAssistant] (src/main.py)

    The development embeds the part of [src/main.py] that receives an image
    over a byte stream, reassembles it and merges it into the chat context:
    the stream handler installed by [on_enter] (lines 125-137) and the
    coroutine [_image_received] (lines 139-158).

    Python's cooperative scheduling is made explicit.  A task is a frame that
    is suspended at one of the [await] points of the coroutine; the event loop
    is a function that resumes one task at a time, and an interleaving is a
    list of events.  Between two suspension points a task runs alone: lines
    146-155 read the context, append the message and replace the context
    without giving way to another task. *)

From Stdlib Require Import NArith Ascii String.
From Stdlib.Strings Require Import Byte.
From stdpp Require Import base tactics option list strings.

Local Open Scope string_scope.
Local Open Scope list_scope.
Local Open Scope nat_scope.

(** ** Bytes and exceptions *)

(** A Python [bytes] value. *)
Definition bytes : Type := list byte.

(** An instance of Python's [Exception], as matched by [except Exception]
    on line 157.  Only the text that [logger.error] prints is kept. *)
Inductive exn : Type :=
| Exception (text : string).

Inductive result (A : Type) : Type :=
| Ok (a : A)
| Raise (e : exn).
Arguments Ok {A} a.
Arguments Raise {A} e.

(** ** base64.b64encode (RFC 4648, standard alphabet, with padding) *)

Module Base64.

Definition alphabet : string :=
  "ABCDEFGHIJKLMNOPQRSTUVWXYZabcdefghijklmnopqrstuvwxyz0123456789+/".

Definition pad : ascii := "="%char.

(** The character of a 6-bit value. *)
Definition digit (n : N) : ascii :=
  default pad (String.get (N.to_nat n) alphabet).

(** Three input bytes as one 24-bit number, first byte highest. *)
Definition group (a b c : byte) : N :=
  (Byte.to_N a * 65536 + Byte.to_N b * 256 + Byte.to_N c)%N.

(** The [k]-th 6-bit field of a 24-bit group, counted from the low end. *)
Definition sextet (w : N) (k : N) : N :=
  N.land (N.shiftr w (6 * k)) 63.

(** [base64.b64encode(s).decode('utf-8')]: the output is ASCII, so decoding
    it as UTF-8 gives the string with the same characters. *)
Fixpoint b64encode (s : bytes) : string :=
  match s with
  | [] => ""
  | [a] =>
      let w := group a x00 x00 in
      String (digit (sextet w 3)) (String (digit (sextet w 2))
        (String pad (String pad "")))
  | [a; b] =>
      let w := group a b x00 in
      String (digit (sextet w 3)) (String (digit (sextet w 2))
        (String (digit (sextet w 1)) (String pad "")))
  | a :: b :: c :: rest =>
      let w := group a b c in
      String (digit (sextet w 3)) (String (digit (sextet w 2))
        (String (digit (sextet w 1)) (String (digit (sextet w 0))
          (b64encode rest))))
  end.

(** The inverse of [digit] on the alphabet. *)
Definition value (c : ascii) : option N :=
  let n := N_of_ascii c in
  if (65 <=? n)%N && (n <=? 90)%N then Some (n - 65)%N
  else if (97 <=? n)%N && (n <=? 122)%N then Some (n - 71)%N
  else if (48 <=? n)%N && (n <=? 57)%N then Some (n + 4)%N
  else if (n =? 43)%N then Some 62%N
  else if (n =? 47)%N then Some 63%N
  else None.

Definition byte_of (n : N) : byte :=
  default x00 (Byte.of_N (n mod 256)).

(** [base64.b64decode] on padded input, four characters at a time.  It is
    not called by the program; it is here to state that the data reference
    built on line 151 loses none of the image's bytes. *)
Fixpoint b64decode (s : string) : option bytes :=
  match s with
  | EmptyString => Some []
  | String c1 (String c2 (String c3 (String c4 rest))) =>
      v1 ← value c1; v2 ← value c2;
      if Ascii.eqb c3 pad then
        if Ascii.eqb c4 pad then
          match rest with
          | EmptyString => Some [byte_of (v1 * 4 + v2 / 16)]
          | _ => None
          end
        else None
      else
        v3 ← value c3;
        if Ascii.eqb c4 pad then
          match rest with
          | EmptyString =>
              Some [byte_of (v1 * 4 + v2 / 16); byte_of (v2 * 16 + v3 / 4)]
          | _ => None
          end
        else
          v4 ← value c4;
          tl ← b64decode rest;
          Some (byte_of (v1 * 4 + v2 / 16) :: byte_of (v2 * 16 + v3 / 4)
                :: byte_of (v3 * 64 + v4) :: tl)
  | _ => None
  end.

End Base64.

(** ** The chat context

    [ChatContext], [ChatMessage] and [ImageContent] are classes of the
    livekit-agents library, which is not part of this repository. *)

(** Modelled from the spec: a content item of a chat message, "text or an
    embedded image reference" (spec, section 3); [ImageContent(image=s)]
    carries the string [s]. *)
Inductive Content : Type :=
| TextContent (text : string)
| ImageContent (image : string).

(** Modelled from the spec: a chat message is a role and its ordered content
    items (spec, section 3). *)
Record ChatMessage : Type := mkChatMessage {
  role : string;
  content : list Content
}.

(** Modelled from the spec: the chat context is "an ordered sequence of
    ChatMessage" (spec, section 3). *)
Definition ChatContext : Type := list ChatMessage.

(** Modelled from the spec: [ChatContext.copy] gives "an immutable read-only
    copy of the current snapshot" (spec, section 4.4); contexts are values
    here, so the copy is the context itself. *)
Definition copy (ctx : ChatContext) : ChatContext := ctx.

(** Modelled from the spec: [ChatContext.add_message] appends the new
    message to the copy (spec, section 4.4). *)
Definition add_message (ctx : ChatContext) (r : string) (c : list Content)
  : ChatContext :=
  ctx ++ [mkChatMessage r c].

(** ** Byte stream readers *)

(** The [reader] argument of the stream handler.  [info_name] is what
    evaluating [reader.info.name] gives (a name, or the exception the access
    raises); [chunks] are the chunks the stream will deliver to
    [async for chunk in reader], in delivery order, before it ends. *)
Record ByteStreamReader : Type := mkReader {
  info_name : result string;
  chunks : list bytes
}.

(** ** Tasks *)

(** Where the coroutine [_image_received] of a task stands.  Between two
    suspension points the body runs without interruption. *)
Inductive Frame : Type :=
| Created
    (* [asyncio.create_task] has returned, the body has not started *)
| Draining (image_bytes : bytes) (pending : list bytes)
    (* suspended in [async for chunk in reader] (line 143) *)
| Merging (ctx : ChatContext)
    (* suspended in [await self.update_chat_ctx(chat_ctx)] (line 155): the
       context has been replaced by [ctx], the call has not returned *)
| Finished (outcome : option exn)
    (* the body returned ([None]) or raised ([Some e]); callbacks pending *)
| Retired (outcome : option exn).
    (* the done callbacks have run *)

(** [lambda t: self._tasks.remove(t)] (line 131) is the only callback. *)
Inductive DoneCallback : Type :=
| remove_from_tasks.

Record Task : Type := mkTask {
  t_reader : ByteStreamReader;
  t_participant : string;
  t_callbacks : list DoneCallback;
  t_frame : Frame
}.

(** A stream handler registered with the room: the closure that [on_enter]
    defines on line 126 is the only one. *)
Inductive Handler : Type :=
| on_enter_closure.

Inductive LogRecord : Type :=
| LogInfo (participant_identity name : string)     (* line 140 *)
| LogError (e : exn)                               (* line 158 *)
| LoopError (e : exn).
    (* the event loop's report of an exception raised by a callback *)

(** The agent, its room and the task objects of the event loop.  A task
    handle is the index of the task in [pool], in creation order. *)
Record World : Type := mkWorld {
  chat_ctx : ChatContext;                  (* self.chat_ctx *)
  _tasks : list nat;                       (* self._tasks *)
  pool : list Task;
  handlers : list (string * Handler);      (* the room's byte stream handlers *)
  log : list LogRecord;
  stdout : list ChatContext;               (* line 156 *)
  replies : list string                    (* session.generate_reply *)
}.

Definition with_chat_ctx (c : ChatContext) (w : World) : World :=
  mkWorld c (_tasks w) (pool w) (handlers w) (log w) (stdout w) (replies w).

Definition with_tasks (l : list nat) (w : World) : World :=
  mkWorld (chat_ctx w) l (pool w) (handlers w) (log w) (stdout w) (replies w).

Definition with_pool (p : list Task) (w : World) : World :=
  mkWorld (chat_ctx w) (_tasks w) p (handlers w) (log w) (stdout w) (replies w).

Definition with_handlers (h : list (string * Handler)) (w : World) : World :=
  mkWorld (chat_ctx w) (_tasks w) (pool w) h (log w) (stdout w) (replies w).

Definition logger (r : LogRecord) (w : World) : World :=
  mkWorld (chat_ctx w) (_tasks w) (pool w) (handlers w) (log w ++ [r])
          (stdout w) (replies w).

Definition print (c : ChatContext) (w : World) : World :=
  mkWorld (chat_ctx w) (_tasks w) (pool w) (handlers w) (log w)
          (stdout w ++ [c]) (replies w).

Definition generate_reply (instructions : string) (w : World) : World :=
  mkWorld (chat_ctx w) (_tasks w) (pool w) (handlers w) (log w) (stdout w)
          (replies w ++ [instructions]).

Definition with_frame (f : Frame) (tk : Task) : Task :=
  mkTask (t_reader tk) (t_participant tk) (t_callbacks tk) f.

(** The frame of task [t] moves to [f]. *)
Definition set_frame (t : nat) (tk : Task) (f : Frame) (w : World) : World :=
  with_pool (<[t := with_frame f tk]> (pool w)) w.

(** Python's [list.remove(x)]: drops the first occurrence; [None] stands
    for the [ValueError] raised when there is none. *)
Fixpoint list_remove (x : nat) (l : list nat) : option (list nat) :=
  match l with
  | [] => None
  | y :: l' => if decide (x = y) then Some l' else (y ::.) <$> list_remove x l'
  end.

(** ** The coroutine [_image_received] (lines 139-158) *)

(** The string built on line 151. *)
Definition data_url (image_bytes : bytes) : string :=
  "data:image/png;base64," +:+ Base64.b64encode image_bytes.

(** The message added on lines 147-154. *)
Definition image_message (image_bytes : bytes) : ChatMessage :=
  mkChatMessage "user" [ImageContent (data_url image_bytes)].

(** Modelled from the spec: [Agent.update_chat_ctx] is livekit's; it
    "replaces the session's authoritative context" with the snapshot it is
    given (spec, section 6).  The replacement is done when the call is made;
    the call then awaits "an external publish call" (spec, section 5), and
    that is where the coroutine is suspended on line 155. *)
Definition update_chat_ctx (new_snapshot : ChatContext) (w : World) : World :=
  with_chat_ctx new_snapshot w.

(** How the event loop wakes a suspended coroutine: the awaited operation
    gave a value, or it raised. *)
Inductive Wake : Type :=
| Value
| Throw (e : exn).

(** One resumption of the body of task [t], up to its next suspension point
    or its end. *)
Definition _image_received (w : World) (t : nat) (tk : Task) (wake : Wake)
  : World :=
  match t_frame tk, wake with
  | Created, Value =>
      (* line 140, outside the [try] *)
      match info_name (t_reader tk) with
      | Raise e => set_frame t tk (Finished (Some e)) w
      | Ok name =>
          let w := logger (LogInfo (t_participant tk) name) w in
          (* line 142, then the first wait of the loop on line 143 *)
          set_frame t tk (Draining [] (chunks (t_reader tk))) w
      end
  | Draining image_bytes (chunk :: pending), Value =>
      (* line 144 *)
      set_frame t tk (Draining (image_bytes ++ chunk) pending) w
  | Draining image_bytes [], Value =>
      (* the reader is exhausted: lines 146-154, then the call of line 155,
         which replaces the context and waits *)
      let ctx := copy (chat_ctx w) in
      let ctx :=
        add_message ctx "user" [ImageContent (data_url image_bytes)] in
      let w := update_chat_ctx ctx w in
      set_frame t tk (Merging ctx) w
  | Merging _, Value =>
      (* the call of line 155 returns, then line 156 *)
      let w := print (copy (chat_ctx w)) w in
      set_frame t tk (Finished None) w
  | Draining _ _, Throw e | Merging _, Throw e =>
      (* lines 157-158 *)
      let w := logger (LogError e) w in
      set_frame t tk (Finished None) w
  | Created, Throw _ | Finished _, _ | Retired _, _ => w
  end.

(** ** The event loop *)

Definition run_callback (t : nat) (cb : DoneCallback) (w : World) : World :=
  match cb with
  | remove_from_tasks =>
      match list_remove t (_tasks w) with
      | Some l => with_tasks l w
      | None =>
          logger (LoopError (Exception "list.remove(x): x not in list")) w
      end
  end.

(** The handler of lines 126-131: create the task, track it, register the
    callback, return. *)
Definition _image_received_handler (reader : ByteStreamReader)
    (participant_identity : string) (w : World) : World :=
  let task := length (pool w) in
  let w :=
    with_pool (pool w ++ [mkTask reader participant_identity [] Created]) w in
  let w := with_tasks (_tasks w ++ [task]) w in
  with_pool
    (<[task := mkTask reader participant_identity [remove_from_tasks] Created]>
       (pool w)) w.

Definition call_handler (h : Handler) : ByteStreamReader → string → World → World :=
  match h with
  | on_enter_closure => _image_received_handler
  end.

(** Modelled from the spec: the room invokes the handler registered for a
    channel "once per new inbound stream" on that channel (spec, section 6);
    every entry under the channel's name is invoked. *)
Definition dispatch (topic : string) (reader : ByteStreamReader)
    (participant_identity : string) (w : World) : World :=
  foldl (fun w '(name, h) =>
           if decide (name = topic)
           then call_handler h reader participant_identity w else w)
        w (handlers w).

Inductive Event : Type :=
| Incoming (topic : string) (reader : ByteStreamReader)
           (participant_identity : string)
    (* the session layer announces a new inbound stream *)
| Run (t : nat)
    (* what task [t] waits for is there: its body goes on; for a finished
       task, its done callbacks run *)
| Fail (t : nat) (e : exn).
    (* what task [t] waits for raises [e] *)

Definition step (w : World) (ev : Event) : World :=
  match ev with
  | Incoming topic reader who => dispatch topic reader who w
  | Run t =>
      match pool w !! t with
      | None => w
      | Some tk =>
          match t_frame tk with
          | Finished o =>
              let w := foldl (fun w cb => run_callback t cb w) w
                             (t_callbacks tk) in
              set_frame t tk (Retired o) w
          | _ => _image_received w t tk Value
          end
      end
  | Fail t e =>
      match pool w !! t with
      | None => w
      | Some tk => _image_received w t tk (Throw e)
      end
  end.

(** An interleaving is a list of events, run from left to right. *)
Definition exec (w : World) (evs : list Event) : World :=
  foldl step w evs.

(** ** Registration (line 133) *)

(** Modelled from the spec: [Room.register_byte_stream_handler] is the
    session layer's; registering a channel name that already has a handler
    "must be rejected or no-op" (spec, section 8): the handlers are left as
    they are and the call raises. *)
Definition register_byte_stream_handler (topic : string) (h : Handler)
    (w : World) : result World :=
  if decide (topic ∈ (handlers w).*1)
  then Raise (Exception "byte stream handler already set")
  else Ok (with_handlers (handlers w ++ [(topic, h)]) w).

(** [on_enter] (lines 125-137): the world it leaves and the exception it
    raised, if any. *)
Definition on_enter (w : World) : World * option exn :=
  match register_byte_stream_handler "test" on_enter_closure w with
  | Raise e => (w, Some e)
  | Ok w =>
      (generate_reply "Briefly greet the user and offer your assistance." w,
       None)
  end.

(** The agent as [__init__] leaves it (line 25), with an empty room. *)
Definition init (ctx : ChatContext) : World :=
  mkWorld ctx [] [] [] [] [] [].

(** A session in which [on_enter] has run once. *)
Definition session (ctx : ChatContext) : World :=
  (on_enter (init ctx)).1.

(** The task an event wakes. *)
Definition target (ev : Event) : option nat :=
  match ev with
  | Incoming _ _ _ => None
  | Run t | Fail t _ => Some t
  end.

(** The frame of task [t], if the task exists. *)
Definition frame_of (w : World) (t : nat) : option Frame :=
  t_frame <$> pool w !! t.

(** Whether a task is suspended in the call of line 155. *)
Definition on_line_155 (tk : Task) : bool :=
  match t_frame tk with
  | Merging _ => true
  | _ => false
  end.

(** The number of tasks suspended in the call of line 155. *)
Definition waiting (w : World) : nat :=
  length (filter (λ tk, on_line_155 tk) (pool w)).

(** The number of merges done.  A merge is done as soon as line 155 has
    replaced the context; the task then waits in the call, and when the
    call returns line 156 prints.  So the merges done are those of the
    tasks that are waiting in the call and those that line 156 has
    printed; a call that raises is not counted. *)
Definition merged (w : World) : nat := length (stdout w) + waiting w.

(** The task that the handler creates. *)
Definition new_task (reader : ByteStreamReader) (participant_identity : string)
  : Task :=
  mkTask reader participant_identity [remove_from_tasks] Created.

(** The snapshot that an event publishes, if it publishes one: only the
    resumption of a task that finds its reader exhausted does, on line 155,
    with the current context followed by its message. *)
Definition publishes (w : World) (ev : Event) : option ChatContext :=
  match ev with
  | Run t =>
      match frame_of w t with
      | Some (Draining image_bytes []) =>
          Some (chat_ctx w ++ [image_message image_bytes])
      | _ => None
      end
  | _ => None
  end.

(** What an event prints on line 156, if it prints: only the resumption of a
    task suspended on line 155 does, and it prints the current context. *)
Definition printed (w : World) (ev : Event) : option ChatContext :=
  match ev with
  | Run t =>
      match frame_of w t with
      | Some (Merging _) => Some (chat_ctx w)
      | _ => None
      end
  | _ => None
  end.

(** Whether the done callbacks of a task have run. *)
Definition retired (tk : Task) : bool :=
  match t_frame tk with
  | Retired _ => true
  | _ => false
  end.

(** The tracking list holds each task from its creation until its done
    callback has run, once, and every task carries that callback. *)
Record tracked_ok (w : World) : Prop := mk_tracked_ok {
  tracked_nodup : NoDup (_tasks w);
  tracked_iff :
    ∀ t, t ∈ _tasks w ↔ ∃ tk, pool w !! t = Some tk ∧ retired tk = false;
  tracked_callbacks :
    ∀ t tk, pool w !! t = Some tk → t_callbacks tk = [remove_from_tasks]
}.

(** Whether an event wakes task [t]. *)
Definition wakes (t : nat) (ev : Event) : bool :=
  bool_decide (target ev = Some t).

(** The events of an interleaving that wake task [t], and the others. *)
Definition own (t : nat) (evs : list Event) : list Event :=
  filter (λ ev, wakes t ev) evs.

Definition others (t : nat) (evs : list Event) : list Event :=
  filter (λ ev, ¬ wakes t ev) evs.

(** ** Sample streams

    Two participants send an image each over the channel of [on_enter]:
    alice's comes in two chunks, bob's in one. *)
Module Sample.

Definition alice : ByteStreamReader :=
  mkReader (Ok "a.png") [[x89; "P"; "N"; "G"]%byte; ["A"; "B"]%byte].

Definition bob : ByteStreamReader :=
  mkReader (Ok "b.png") [["C"]%byte].

(** Both streams have been announced; alice's task is 0, bob's is 1. *)
Definition announced : World :=
  exec (session []) [Incoming "test" alice "alice";
                     Incoming "test" bob "bob"].

(** Alice's task starts and receives its two chunks while bob's task
    starts and receives its one. *)
Definition draining : list Event :=
  [Run 0; Run 1; Run 0; Run 1; Run 0].

(** Then both tasks find their reader exhausted and make the call of line
    155, both are resumed from it, and both retire. *)
Definition racing : list Event :=
  draining ++ [Run 0; Run 1; Run 0; Run 1; Run 0; Run 1].

(** The same work with alice's task resumed from line 155 before bob's task
    reads the context. *)
Definition in_turn : list Event :=
  draining ++ [Run 0; Run 0; Run 1; Run 1; Run 0; Run 1].

(** Alice's reader raises after its first chunk while bob's image goes
    through; then both tasks are retired. *)
Definition failing : list Event :=
  [Run 0; Run 1; Run 0; Run 1; Fail 0 (Exception "stream reset");
   Run 1; Run 1; Run 0; Run 1].

End Sample.

(** A sequence of registration requests; a rejected request is skipped. *)
Definition register_all (regs : list (string * Handler)) (w : World) : World :=
  foldl (fun w '(topic, h) =>
           match register_byte_stream_handler topic h w with
           | Ok w' => w'
           | Raise _ => w
           end) w regs.


(** The number of calls of line 155 that an interleaving makes fail: the
    events that raise into a task suspended there. *)
Fixpoint update_failures (w : World) (evs : list Event) : nat :=
  match evs with
  | [] => 0
  | ev :: evs' =>
      match ev with
      | Fail t _ =>
          match frame_of w t with
          | Some (Merging _) => 1
          | _ => 0
          end
      | _ => 0
      end + update_failures (step w ev) evs'
  end.

(** A message built on lines 147-154. *)
Definition is_image_message (m : ChatMessage) : Prop :=
  ∃ b, m = image_message b.

(** Two worlds that differ at most in task [t], the log and the tracking
    list. *)
Definition same_but (t : nat) (w1 w2 : World) : Prop :=
  chat_ctx w1 = chat_ctx w2 ∧ handlers w1 = handlers w2 ∧
  stdout w1 = stdout w2 ∧ length (pool w1) = length (pool w2) ∧
  ∀ t', t' ≠ t → pool w1 !! t' = pool w2 !! t'.


(** A character of base64 text: one of the 64 digits, or the padding. *)
Definition b64_char (c : ascii) : Prop :=
  is_Some (Base64.value c) ∨ c = Base64.pad.

(** What a task holds is made of its own reader's chunks: while it drains,
    its buffer followed by the chunks still to come is the whole payload;
    once it has built its snapshot, the snapshot ends with the message of
    the whole payload. *)
Definition frame_ok (tk : Task) : Prop :=
  match t_frame tk with
  | Draining image_bytes pending =>
      image_bytes ++ concat pending = concat (chunks (t_reader tk))
  | Merging ctx =>
      ∃ base,
        ctx = base ++ [image_message (concat (chunks (t_reader tk)))]
  | _ => True
  end.

(** The snapshot that a task passed to the call of line 155 in which it is
    suspended is the beginning of the current context. *)
Definition snapshots_kept (w : World) : Prop :=
  ∀ t tk s, pool w !! t = Some tk → t_frame tk = Merging s →
    ∃ later, chat_ctx w = s ++ later.

(** The context is [ctx0] followed by image messages, and so was it each
    time line 156 printed it; what has been printed is the beginning of
    what the context holds now. *)
Definition prints_kept (ctx0 : ChatContext) (w : World) : Prop :=
  (∃ new, chat_ctx w = ctx0 ++ new ∧ Forall is_image_message new) ∧
  Forall (λ c, ∃ new later,
            c = ctx0 ++ new ∧ Forall is_image_message new ∧
            chat_ctx w = c ++ later) (stdout w).

(** Whether a log record is the event loop's report of a failed callback. *)
Definition is_loop_error (r : LogRecord) : bool :=
  match r with
  | LoopError _ => true
  | _ => false
  end.

(** A stream whose metadata cannot be read. *)
Module Faulty.

Definition carol : ByteStreamReader :=
  mkReader (Raise (Exception "no stream info")) [["D"]%byte].

(** Carol's stream has been announced; her task is 0. *)
Definition announced : World :=
  exec (session []) [Incoming "test" carol "carol"].

End Faulty.

(** A session in which alice's and bob's tasks have both made the call of
    line 155 and are suspended in it. *)
Module Overlap.

Definition both_waiting : list Event :=
  [Incoming "test" Sample.alice "alice"; Incoming "test" Sample.bob "bob"]
  ++ Sample.draining ++ [Run 0; Run 1].

End Overlap.

(** * Properties *)

(** ** The encoding loses no byte *)

Example b64encode_Man : Base64.b64encode ["M"; "a"; "n"]%byte = "TWFu".
Proof. reflexivity. Qed.

Example b64encode_Ma : Base64.b64encode ["M"; "a"]%byte = "TWE=".
Proof. reflexivity. Qed.

Example b64encode_M : Base64.b64encode ["M"]%byte = "TQ==".
Proof. reflexivity. Qed.

Example b64encode_png_magic :
  Base64.b64encode [x89; "P"; "N"; "G"]%byte = "iVBORw==".
Proof. reflexivity. Qed.

Lemma digit_value (i : N) :
  (i < 64)%N →
  Base64.value (Base64.digit i) = Some i ∧
  Ascii.eqb (Base64.digit i) Base64.pad = false.
Proof.
  intros Hi.
  assert (Forall (λ n, Base64.value (Base64.digit (N.of_nat n))
                         = Some (N.of_nat n) ∧
                       Ascii.eqb (Base64.digit (N.of_nat n)) Base64.pad = false)
                 (seq 0 64)) as Hall.
  { by repeat (constructor; [by vm_compute|]). }
  rewrite Forall_forall in Hall.
  specialize (Hall (N.to_nat i)). rewrite N2Nat.id in Hall.
  apply Hall, elem_of_seq. lia.
Qed.

Lemma sextet_lt (w k : N) : (Base64.sextet w k < 64)%N.
Proof.
  unfold Base64.sextet. change 63%N with (N.ones 6).
  rewrite N.land_ones. by apply N.mod_lt.
Qed.

Lemma sextet_div_mod (w k : N) :
  Base64.sextet w k = ((w / 2 ^ (6 * k)) mod 64)%N.
Proof.
  unfold Base64.sextet. change 63%N with (N.ones 6).
  by rewrite N.land_ones, N.shiftr_div_pow2.
Qed.

Lemma byte_of_to_N (n : N) (a : byte) :
  (n mod 256)%N = Byte.to_N a → Base64.byte_of n = a.
Proof. intros H. unfold Base64.byte_of. by rewrite H, Byte.of_to_N. Qed.

Lemma to_N_lt (a : byte) : (Byte.to_N a < 256)%N.
Proof. pose proof (Byte.to_N_bounded a). lia. Qed.

(** The four 6-bit fields of a group give back its three bytes. *)
Lemma group_bytes (a b c : byte) :
  let w := Base64.group a b c in
  let v k := Base64.sextet w k in
  Base64.byte_of (v 3 * 4 + v 2 / 16)%N = a ∧
  Base64.byte_of (v 2 * 16 + v 1 / 4)%N = b ∧
  Base64.byte_of (v 1 * 64 + v 0)%N = c.
Proof.
  intros w v. subst v w. cbv beta. rewrite !sextet_div_mod.
  unfold Base64.group.
  pose proof (to_N_lt a). pose proof (to_N_lt b). pose proof (to_N_lt c).
  change (2 ^ (6 * 3))%N with 262144%N. change (2 ^ (6 * 2))%N with 4096%N.
  change (2 ^ (6 * 1))%N with 64%N. change (2 ^ (6 * 0))%N with 1%N.
  split_and!; apply byte_of_to_N;
    generalize dependent (Byte.to_N a); generalize dependent (Byte.to_N b);
    generalize dependent (Byte.to_N c); intros z Hz y Hy x Hx;
    zify; Z.to_euclidean_division_equations; lia.
Qed.

Lemma value_sextet (w k : N) :
  Base64.value (Base64.digit (Base64.sextet w k)) = Some (Base64.sextet w k).
Proof. apply digit_value, sextet_lt. Qed.

Lemma digit_not_pad (w k : N) :
  Ascii.eqb (Base64.digit (Base64.sextet w k)) Base64.pad = false.
Proof. apply digit_value, sextet_lt. Qed.

(** Decoding the encoding of some bytes gives these bytes back: the string
    built on line 151 determines the image. *)
Lemma b64decode_b64encode (s : bytes) :
  Base64.b64decode (Base64.b64encode s) = Some s.
Proof.
  cut (Base64.b64decode (Base64.b64encode s) = Some s ∧
       (∀ a, Base64.b64decode (Base64.b64encode (a :: s)) = Some (a :: s)) ∧
       (∀ a b, Base64.b64decode (Base64.b64encode (a :: b :: s))
               = Some (a :: b :: s))); [tauto|].
  assert (Ascii.eqb Base64.pad Base64.pad = true) as Hpad by done.
  induction s as [|c s (IH0 & IH1 & IH2)]; split_and!; try done;
    intros a; try intros b;
    cbn [Base64.b64encode Base64.b64decode];
    rewrite ?value_sextet, ?digit_not_pad, ?Hpad, ?IH0;
    cbn [mbind option_bind];
    rewrite ?value_sextet, ?digit_not_pad, ?Hpad, ?IH0;
    cbn [mbind option_bind];
    rewrite ?value_sextet, ?digit_not_pad, ?Hpad, ?IH0;
    cbn [mbind option_bind];
    rewrite ?value_sextet, ?digit_not_pad, ?Hpad, ?IH0;
    cbn [mbind option_bind].
  - by destruct (group_bytes a x00 x00) as (-> & _ & _).
  - by destruct (group_bytes a b x00) as (-> & -> & _).
  - by destruct (group_bytes a b c) as (-> & -> & ->).
Qed.



(** ** Lists of handles *)

Lemma list_remove_elem (x : nat) (l : list nat) :
  x ∈ l → ∃ l', list_remove x l = Some l' ∧ length l = S (length l').
Proof.
  induction l as [|y l IH]; intros Hx; [by apply elem_of_nil in Hx|].
  simpl. destruct (decide (x = y)) as [->|Hne]; [by eexists|].
  apply elem_of_cons in Hx as [?|Hx]; [done|].
  destruct (IH Hx) as (l' & -> & Hlen). eexists; split; [done|].
  simpl; by rewrite Hlen.
Qed.

Lemma list_remove_other (x y : nat) (l l' : list nat) :
  list_remove x l = Some l' → x ≠ y → (y ∈ l' ↔ y ∈ l).
Proof.
  revert l'; induction l as [|z l IH]; intros l' Hr Hne; simpl in Hr; [done|].
  destruct (decide (x = z)) as [->|Hxz].
  - injection Hr as <-. rewrite elem_of_cons.
    split; [by right|]. by intros [->|?].
  - destruct (list_remove x l) as [l''|] eqn:E; simplify_eq/=.
    rewrite !elem_of_cons, (IH l'') by done. done.
Qed.

(** ** The handler and the tasks it leaves alone *)

Lemma call_handler_spec h r who w :
  call_handler h r who w =
  mkWorld (chat_ctx w) (_tasks w ++ [length (pool w)])
          (pool w ++ [new_task r who])
          (handlers w) (log w) (stdout w) (replies w).
Proof.
  destruct h.
  unfold call_handler, _image_received_handler, with_pool, with_tasks, new_task.
  cbn. f_equal. rewrite insert_app_r_alt by lia. by rewrite Nat.sub_diag.
Qed.

Lemma image_received_handler_spec r who w :
  _image_received_handler r who w =
  mkWorld (chat_ctx w) (_tasks w ++ [length (pool w)])
          (pool w ++ [new_task r who])
          (handlers w) (log w) (stdout w) (replies w).
Proof. apply (call_handler_spec on_enter_closure). Qed.

Lemma set_frame_lookup_ne w t t' tk f :
  t ≠ t' → pool (set_frame t tk f w) !! t' = pool w !! t'.
Proof. intros H. cbn. by apply list_lookup_insert_ne. Qed.

Lemma run_callbacks_fields t cbs w :
  let w' := foldl (fun w cb => run_callback t cb w) w cbs in
  chat_ctx w' = chat_ctx w ∧ pool w' = pool w ∧ handlers w' = handlers w ∧
  stdout w' = stdout w ∧ replies w' = replies w.
Proof.
  revert w; induction cbs as [|cb cbs IH]; intros w; [done|].
  cbn [foldl]. destruct (IH (run_callback t cb w)) as (-> & -> & -> & -> & ->).
  destruct cb; cbn. by destruct (list_remove t (_tasks w)).
Qed.

Lemma dispatch_fold topic r who (hs : list (string * Handler)) w :
  let k := length (filter (λ e, e.1 = topic) hs) in
  foldl (fun w '(name, h) =>
           if decide (name = topic) then call_handler h r who w else w) w hs =
  mkWorld (chat_ctx w) (_tasks w ++ seq (length (pool w)) k)
          (pool w ++ replicate k (new_task r who))
          (handlers w) (log w) (stdout w) (replies w).
Proof.
  revert w; induction hs as [|[name h] hs IH]; intros w.
  - cbn. rewrite !app_nil_r. by destruct w.
  - cbn [foldl]. rewrite filter_cons. cbn [fst].
    destruct (decide (name = topic)) as [->|Hne].
    + rewrite IH, call_handler_spec; cbn.
      rewrite length_app; cbn. rewrite Nat.add_1_r.
      by rewrite <- !app_assoc.
    + by rewrite IH.
Qed.

Lemma dispatch_spec topic r who w :
  let k := length (filter (λ e, e.1 = topic) (handlers w)) in
  dispatch topic r who w =
  mkWorld (chat_ctx w) (_tasks w ++ seq (length (pool w)) k)
          (pool w ++ replicate k (new_task r who))
          (handlers w) (log w) (stdout w) (replies w).
Proof. apply dispatch_fold. Qed.

Lemma image_received_pool w t tk wake :
  pool (_image_received w t tk wake) = pool w ∨
  ∃ f, pool (_image_received w t tk wake) = <[t := with_frame f tk]> (pool w).
Proof.
  unfold _image_received.
  destruct (t_frame tk) as [|b [|c p]|s|o|o], wake; cbn; eauto.
  destruct (info_name (t_reader tk)); cbn; eauto.
Qed.

(** An event that wakes another task, or announces a stream, leaves the
    task [t] as it is. *)
Lemma step_other_task w ev t tk :
  target ev ≠ Some t → pool w !! t = Some tk → pool (step w ev) !! t = Some tk.
Proof.
  intros Hne Ht. destruct ev as [topic r who|t'|t' e]; cbn.
  - rewrite dispatch_spec; cbn. by apply lookup_app_l_Some.
  - assert (t' ≠ t) by (intros ->; by apply Hne).
    destruct (pool w !! t') as [tk'|] eqn:Ht'; [|done].
    destruct (t_frame tk') eqn:Hf;
      try (destruct (image_received_pool w t' tk' Value) as [->|[f ->]];
           [done|by rewrite list_lookup_insert_ne]).
    cbn. rewrite list_lookup_insert_ne by done.
    by destruct (run_callbacks_fields t' (t_callbacks tk') w) as (_ & -> & _).
  - assert (t' ≠ t) by (intros ->; by apply Hne).
    destruct (pool w !! t') as [tk'|] eqn:Ht'; [|done].
    destruct (image_received_pool w t' tk' (Throw e)) as [->|[f ->]];
      [done|by rewrite list_lookup_insert_ne].
Qed.

Lemma exec_cons w ev evs : exec w (ev :: evs) = exec (step w ev) evs.
Proof. done. Qed.

Lemma exec_app w evs1 evs2 : exec w (evs1 ++ evs2) = exec (exec w evs1) evs2.
Proof. apply foldl_app. Qed.

(** The chat context changes only by a publication, which replaces it. *)
Lemma step_chat_ctx w ev :
  chat_ctx (step w ev) = default (chat_ctx w) (publishes w ev).
Proof.
  destruct ev as [topic r who|t|t e]; cbn.
  - by rewrite dispatch_spec.
  - unfold frame_of. destruct (pool w !! t) as [tk|] eqn:Ht; [|done]. cbn.
    destruct tk as [r who cbs fr]; cbn.
    destruct fr as [|b [|c p]|s|o|o]; cbn; try done.
    + by destruct (info_name r).
    + by destruct (run_callbacks_fields t cbs w) as (-> & _).
  - destruct (pool w !! t) as [tk|] eqn:Ht; [|done].
    destruct tk as [r who cbs fr]; cbn.
    by destruct fr as [|b [|c p]|s|o|o].
Qed.

(** Line 156 prints once for each call of line 155 that returns, and
    nothing else prints. *)
Lemma step_stdout w ev :
  stdout (step w ev) = stdout w ++ option_list (printed w ev).
Proof.
  destruct ev as [topic r who|t|t e]; cbn.
  - by rewrite dispatch_spec, app_nil_r.
  - unfold frame_of. destruct (pool w !! t) as [tk|] eqn:Ht;
      [|by rewrite app_nil_r]. cbn.
    destruct tk as [r who cbs fr]; cbn.
    destruct fr as [|b [|c p]|s|o|o]; cbn; rewrite ?app_nil_r; try done.
    + by destruct (info_name r).
    + by destruct (run_callbacks_fields t cbs w) as (_ & _ & _ & -> & _).
  - rewrite app_nil_r. destruct (pool w !! t) as [tk|] eqn:Ht; [|done].
    destruct tk as [r who cbs fr]; cbn.
    by destruct fr as [|b [|c p]|s|o|o].
Qed.

(** A publication is the context followed by one image message. *)
Lemma publishes_Some w ev s :
  publishes w ev = Some s →
  ∃ t tk b,
    ev = Run t ∧ pool w !! t = Some tk ∧ t_frame tk = Draining b [] ∧
    s = chat_ctx w ++ [image_message b].
Proof.
  destruct ev as [| t |]; cbn; try done. unfold frame_of.
  destruct (pool w !! t) as [tk|] eqn:Ht; [|done]. cbn.
  destruct (t_frame tk) as [|b [|c p]|s'|o|o] eqn:Hf; try done.
  intros [= <-]. by exists t, tk, b.
Qed.

(** The context only grows, by image messages at its end. *)
Lemma step_grows w ev :
  ∃ new,
    chat_ctx (step w ev) = chat_ctx w ++ new ∧ Forall is_image_message new ∧
    length new = length (option_list (publishes w ev)).
Proof.
  rewrite step_chat_ctx. destruct (publishes w ev) as [s|] eqn:Hp; cbn.
  - apply publishes_Some in Hp as (t & tk & b & _ & _ & _ & ->).
    exists [image_message b]. split_and!; [done| |done].
    apply Forall_singleton. by exists b.
  - exists []. by rewrite app_nil_r.
Qed.

Lemma exec_grows evs : ∀ w,
  ∃ new,
    chat_ctx (exec w evs) = chat_ctx w ++ new ∧ Forall is_image_message new.
Proof.
  induction evs as [|ev evs IH]; intros w.
  - exists []. by rewrite app_nil_r.
  - rewrite exec_cons.
    destruct (IH (step w ev)) as (new2 & -> & H2).
    destruct (step_grows w ev) as (new1 & -> & H1 & _).
    exists (new1 ++ new2). rewrite app_assoc. split; [done|].
    by apply Forall_app.
Qed.

(** ** The tracking list *)

Lemma list_remove_NoDup (x : nat) (l l' : list nat) :
  list_remove x l = Some l' → NoDup l → NoDup l' ∧ x ∉ l'.
Proof.
  revert l'; induction l as [|y l IH]; intros l' Hr Hnd; simpl in Hr; [done|].
  apply NoDup_cons in Hnd as [Hy Hnd].
  destruct (decide (x = y)) as [->|Hxy]; [by simplify_eq|].
  destruct (list_remove x l) as [l''|] eqn:E; simplify_eq/=.
  destruct (IH l'' eq_refl Hnd) as [Hnd' Hx]. split.
  - apply NoDup_cons; split; [|done].
    intros Hy'. apply Hy. by eapply (list_remove_other x y l l'').
  - rewrite elem_of_cons. by intros [?|?].
Qed.

Lemma image_received_shape w t tk wake :
  let w' := _image_received w t tk wake in
  _tasks w' = _tasks w ∧ handlers w' = handlers w ∧ replies w' = replies w ∧
  (pool w' = pool w ∨
   retired tk = false ∧
   ∃ f, (∀ o, f ≠ Retired o) ∧ pool w' = <[t := with_frame f tk]> (pool w)).
Proof.
  unfold _image_received, retired.
  destruct (t_frame tk) as [|b [|c p]|s|o|o], wake; cbn;
    try destruct (info_name (t_reader tk)); cbn;
    repeat split; eauto; right; split; try done; eexists; split; eauto; done.
Qed.

Lemma tracked_ok_init ctx : tracked_ok (init ctx).
Proof.
  split; cbn.
  - constructor.
  - intros t. split; [by intros ?%elem_of_nil|by intros (? & ? & _)].
  - by intros t tk.
Qed.

Lemma tracked_ok_image_received w t tk wake :
  tracked_ok w → pool w !! t = Some tk →
  tracked_ok (_image_received w t tk wake).
Proof.
  intros [Hnd Hiff Hcb] Ht.
  destruct (image_received_shape w t tk wake)
    as (Hts & _ & _ & [Hp|(Hr & f & Hf & Hp)]).
  - split; rewrite ?Hts, ?Hp; done.
  - assert (t < length (pool w)) by (by eapply lookup_lt_Some).
    split; rewrite ?Hts, ?Hp; [done| |].
    + intros t'. rewrite Hiff. destruct (decide (t = t')) as [<-|Hne].
      * rewrite list_lookup_insert_eq by done. split.
        -- intros _. eexists; split; [done|].
           unfold retired; cbn. destruct f; try done. by destruct (Hf outcome).
        -- intros _. eauto.
      * by rewrite list_lookup_insert_ne.
    + intros t' tk'. destruct (decide (t = t')) as [<-|Hne].
      * rewrite list_lookup_insert_eq by done.
        intros [= <-]. cbn. by eapply Hcb.
      * rewrite list_lookup_insert_ne by done. apply Hcb.
Qed.

Lemma tracked_ok_step w ev : tracked_ok w → tracked_ok (step w ev).
Proof.
  intros Hok. pose proof Hok as [Hnd Hiff Hcb].
  assert (Hlt : ∀ t, t ∈ _tasks w → t < length (pool w)).
  { intros t (tk & Ht & _)%Hiff. by eapply lookup_lt_Some. }
  destruct ev as [topic r who|t|t e]; cbn.
  - rewrite dispatch_spec.
    set (k := length (filter _ _)). split; cbn.
    + apply NoDup_app; split_and!; [done| |apply NoDup_seq].
      intros x Hx%Hlt Hs%elem_of_seq. lia.
    + intros t. rewrite elem_of_app, elem_of_seq, Hiff. split.
      * intros [(tk & Ht & Hr)|[Hle Hlt']].
        -- exists tk. split; [by apply lookup_app_l_Some|done].
        -- exists (new_task r who). split; [|done].
           rewrite lookup_app_r by done.
           apply lookup_replicate_2. lia.
      * intros (tk & [Ht|[Hle Ht]]%lookup_app_Some & Hr); [left; eauto|].
        right. apply lookup_replicate in Ht as [_ Ht]. lia.
    + intros t tk [Ht|[_ Ht]]%lookup_app_Some; [by eapply Hcb|].
      by apply lookup_replicate in Ht as [-> _].
  - destruct (pool w !! t) as [tk|] eqn:Ht; [|done].
    destruct (t_frame tk) as [|b p|s|o|o] eqn:Hf;
      try (by apply tracked_ok_image_received).
    rewrite (Hcb t tk Ht). cbn.
    assert (t ∈ _tasks w) as Hin.
    { apply Hiff. exists tk. unfold retired. by rewrite Hf. }
    destruct (list_remove_elem t _ Hin) as (l' & Hl' & _).
    rewrite Hl'. cbn.
    destruct (list_remove_NoDup t _ _ Hl' Hnd) as [Hnd' Hnin].
    assert (t < length (pool w)) by (by eapply lookup_lt_Some).
    split; cbn; [done| |].
    + intros t'. destruct (decide (t = t')) as [<-|Hne].
      * split; [done|]. intros (tk' & Ht' & Hr).
        rewrite list_lookup_insert_eq in Ht' by done. by simplify_eq.
      * rewrite (list_remove_other t t' _ _ Hl' Hne), Hiff.
        by rewrite list_lookup_insert_ne.
    + intros t' tk'. destruct (decide (t = t')) as [<-|Hne].
      * rewrite list_lookup_insert_eq by done.
        intros [= <-]. cbn. by eapply Hcb.
      * rewrite list_lookup_insert_ne by done. apply Hcb.
  - destruct (pool w !! t) as [tk|] eqn:Ht; [|done].
    by apply tracked_ok_image_received.
Qed.

Lemma tracked_ok_exec w evs : tracked_ok w → tracked_ok (exec w evs).
Proof.
  revert w; induction evs as [|ev evs IH]; intros w Hok; [done|].
  cbn. by apply IH, tracked_ok_step.
Qed.

Lemma tracked_ok_on_enter w : tracked_ok w → tracked_ok (on_enter w).1.
Proof.
  intros [Hnd Hiff Hcb]. unfold on_enter, register_byte_stream_handler.
  by destruct (decide _).
Qed.

Lemma tracked_ok_session ctx : tracked_ok (session ctx).
Proof. apply tracked_ok_on_enter, tracked_ok_init. Qed.

(** ** One resumption of a task *)

Lemma with_frame_id tk : with_frame (t_frame tk) tk = tk.
Proof. by destruct tk. Qed.

Section resume.
Context (w : World) (t : nat) (tk : Task).
Hypothesis Ht : pool w !! t = Some tk.

Lemma lookup_set_frame f w' :
  pool w' = pool w → pool (set_frame t tk f w') !! t = Some (with_frame f tk).
Proof.
  intros Hp. cbn. rewrite Hp. apply list_lookup_insert_eq.
  by eapply lookup_lt_Some.
Qed.

Lemma run_created name :
  t_frame tk = Created → info_name (t_reader tk) = Ok name →
  step w (Run t) =
  set_frame t tk (Draining [] (chunks (t_reader tk)))
    (logger (LogInfo (t_participant tk) name) w).
Proof.
  intros Hf Hn. cbn. rewrite Ht, Hf. unfold _image_received.
  by rewrite Hf, Hn.
Qed.

Lemma run_created_raises e :
  t_frame tk = Created → info_name (t_reader tk) = Raise e →
  step w (Run t) = set_frame t tk (Finished (Some e)) w.
Proof.
  intros Hf Hn. cbn. rewrite Ht, Hf. unfold _image_received.
  by rewrite Hf, Hn.
Qed.

Lemma run_chunk b c p :
  t_frame tk = Draining b (c :: p) →
  step w (Run t) = set_frame t tk (Draining (b ++ c) p) w.
Proof.
  intros Hf. cbn. rewrite Ht, Hf. unfold _image_received. by rewrite Hf.
Qed.

Lemma run_exhausted b :
  t_frame tk = Draining b [] →
  step w (Run t) =
  set_frame t tk (Merging (chat_ctx w ++ [image_message b]))
    (update_chat_ctx (chat_ctx w ++ [image_message b]) w).
Proof.
  intros Hf. cbn. rewrite Ht, Hf. unfold _image_received. by rewrite Hf.
Qed.

Lemma run_merging s :
  t_frame tk = Merging s →
  step w (Run t) = set_frame t tk (Finished None) (print (chat_ctx w) w).
Proof.
  intros Hf. cbn. rewrite Ht, Hf. unfold _image_received. by rewrite Hf.
Qed.

Lemma fail_in_try e :
  (∃ b p, t_frame tk = Draining b p) ∨ (∃ s, t_frame tk = Merging s) →
  step w (Fail t e) = set_frame t tk (Finished None) (logger (LogError e) w).
Proof.
  intros [(b & p & Hf)|(s & Hf)]; cbn; rewrite Ht; unfold _image_received;
    rewrite Hf; [by destruct p|done].
Qed.

Lemma run_finished o :
  t_frame tk = Finished o → t_callbacks tk = [remove_from_tasks] →
  step w (Run t) = set_frame t tk (Retired o) (run_callback t remove_from_tasks w).
Proof. intros Hf Hc. cbn. by rewrite Ht, Hf, Hc. Qed.
End resume.

(** ** One task in an interleaving *)

Lemma wakes_target t ev : wakes t ev ↔ target ev = Some t.
Proof. unfold wakes. apply bool_decide_spec. Qed.

Lemma own_cons_True t ev evs : wakes t ev → own t (ev :: evs) = ev :: own t evs.
Proof. intros H. unfold own. by rewrite filter_cons_True. Qed.

Lemma own_cons_False t ev evs : ¬ wakes t ev → own t (ev :: evs) = own t evs.
Proof. intros H. unfold own. by rewrite filter_cons_False. Qed.

Lemma step_not_woken w ev t tk :
  ¬ wakes t ev → pool w !! t = Some tk → pool (step w ev) !! t = Some tk.
Proof. rewrite wakes_target. apply step_other_task. Qed.

(** While the loop of lines 143-144 runs, [k] deliveries to task [t] move
    the first [k] pending chunks to the end of its buffer, whatever the
    events in between do. *)
Lemma drain_interleaved t evs : ∀ w tk b p k,
  pool w !! t = Some tk → t_frame tk = Draining b p →
  own t evs = replicate k (Run t) → k ≤ length p →
  pool (exec w evs) !! t =
    Some (with_frame (Draining (b ++ concat (take k p)) (drop k p)) tk).
Proof.
  induction evs as [|ev evs IH]; intros w tk b p k Ht Hf Hown Hk.
  - destruct k; [|done]. cbn. by rewrite app_nil_r, drop_0, <- Hf, with_frame_id.
  - rewrite exec_cons. destruct (decide (wakes t ev)) as [Hw|Hw].
    + rewrite own_cons_True in Hown by done.
      destruct k as [|k]; [done|]. injection Hown as -> Hown.
      destruct p as [|c p]; [cbn in Hk; lia|].
      rewrite (run_chunk w t tk Ht b c p Hf).
      rewrite (IH _ (with_frame (Draining (b ++ c) p) tk) (b ++ c) p k);
        [|by apply (lookup_set_frame w)|done|done|cbn in Hk; lia].
      cbn. by rewrite app_assoc.
    + rewrite own_cons_False in Hown by done.
      apply IH; [by apply step_not_woken|done..].
Qed.

(** The same from the creation of the task: the first resumption runs
    lines 140-143, the next ones deliver chunks. *)
Lemma start_interleaved t evs : ∀ w tk name k,
  pool w !! t = Some tk → t_frame tk = Created →
  info_name (t_reader tk) = Ok name →
  own t evs = replicate (S k) (Run t) → k ≤ length (chunks (t_reader tk)) →
  pool (exec w evs) !! t =
    Some (with_frame (Draining (concat (take k (chunks (t_reader tk))))
                               (drop k (chunks (t_reader tk)))) tk).
Proof.
  induction evs as [|ev evs IH]; intros w tk name k Ht Hf Hn Hown Hk; [done|].
  rewrite exec_cons. destruct (decide (wakes t ev)) as [Hw|Hw].
  - rewrite own_cons_True in Hown by done. injection Hown as -> Hown.
    rewrite (run_created w t tk Ht name Hf Hn).
    rewrite (drain_interleaved t evs _
               (with_frame (Draining [] (chunks (t_reader tk))) tk)
               [] (chunks (t_reader tk)) k);
      [done|by apply (lookup_set_frame w)|done..].
  - rewrite own_cons_False in Hown by done.
    eapply IH; [by apply step_not_woken|done..].
Qed.

Lemma exec_not_woken t evs : ∀ w tk,
  own t evs = [] → pool w !! t = Some tk → pool (exec w evs) !! t = Some tk.
Proof.
  induction evs as [|ev evs IH]; intros w tk Hown Ht; [done|].
  rewrite exec_cons. destruct (decide (wakes t ev)) as [Hw|Hw].
  - by rewrite own_cons_True in Hown.
  - rewrite own_cons_False in Hown by done.
    apply IH; [done|by apply step_not_woken].
Qed.

Lemma frame_of_with_frame w t f tk :
  pool w !! t = Some (with_frame f tk) → frame_of w t = Some f.
Proof. unfold frame_of. by intros ->. Qed.

(** ** The account of line 155 *)

(** Replacing one element of a list changes the number of elements that
    pass a test by what the two elements contribute. *)
Lemma filter_insert_length {A} (P : A → bool) (l : list A) (i : nat) (x y : A) :
  l !! i = Some y →
  length (filter (λ a, P a) (<[i := x]> l)) + Nat.b2n (P y) =
  length (filter (λ a, P a) l) + Nat.b2n (P x).
Proof.
  revert i; induction l as [|a l IH]; intros [|i] Hl; simplify_eq/=.
  - rewrite !filter_cons.
    destruct (P x), (P y); cbn; repeat case_decide; cbn; done || lia.
  - rewrite !filter_cons. specialize (IH i Hl).
    case_decide; cbn; lia.
Qed.

Lemma waiting_set_frame w0 w t tk f :
  pool w0 = pool w → pool w !! t = Some tk →
  waiting (set_frame t tk f w0) + Nat.b2n (on_line_155 tk) =
  waiting w + Nat.b2n (on_line_155 (with_frame f tk)).
Proof.
  intros Hp Ht. unfold waiting; cbn. rewrite Hp.
  by apply filter_insert_length.
Qed.

Lemma waiting_new_tasks r who k (p : list Task) :
  length (filter (λ tk, on_line_155 tk) (p ++ replicate k (new_task r who))) =
  length (filter (λ tk, on_line_155 tk) p).
Proof.
  rewrite filter_app, length_app.
  induction k as [|k IH]; cbn; [lia|]. by case_decide.
Qed.

(** One event keeps the account of line 155 in balance: a message comes
    into the context when a task makes the call, and that is a merge done;
    it stays one when the call returns and line 156 prints, and is one no
    more when the call raises. *)
Lemma step_conserves w ev :
  length (chat_ctx (step w ev)) + merged w =
  length (chat_ctx w) + merged (step w ev) + update_failures w [ev].
Proof.
  destruct ev as [topic r who|t|t e]; cbn [update_failures].
  - cbn [step]. rewrite dispatch_spec. unfold merged, waiting; cbn.
    rewrite waiting_new_tasks. lia.
  - destruct (pool w !! t) as [tk|] eqn:Ht; [|cbn; rewrite Ht; lia].
    destruct (t_frame tk) as [|b [|c p]|s|o|o] eqn:Hf.
    + destruct (info_name (t_reader tk)) as [name|e] eqn:Hn.
      * rewrite (run_created w t tk Ht name Hf Hn).
        pose proof (waiting_set_frame
                      (logger (LogInfo (t_participant tk) name) w) w t tk
                      (Draining [] (chunks (t_reader tk))) eq_refl Ht) as Hw.
        unfold on_line_155 in Hw. rewrite Hf in Hw.
        unfold merged. cbn in Hw |- *. lia.
      * rewrite (run_created_raises w t tk Ht e Hf Hn).
        pose proof (waiting_set_frame w w t tk (Finished (Some e)) eq_refl Ht)
          as Hw.
        unfold on_line_155 in Hw. rewrite Hf in Hw.
        unfold merged. cbn in Hw |- *. lia.
    + rewrite (run_exhausted w t tk Ht b Hf).
      pose proof (waiting_set_frame
                    (update_chat_ctx (chat_ctx w ++ [image_message b]) w)
                    w t tk (Merging (chat_ctx w ++ [image_message b]))
                    eq_refl Ht) as Hw.
      unfold on_line_155 in Hw. rewrite Hf in Hw.
      unfold merged. cbn in Hw |- *. rewrite length_app. cbn. lia.
    + rewrite (run_chunk w t tk Ht b c p Hf).
      pose proof (waiting_set_frame w w t tk (Draining (b ++ c) p) eq_refl Ht)
        as Hw.
      unfold on_line_155 in Hw. rewrite Hf in Hw.
      unfold merged. cbn in Hw |- *. lia.
    + rewrite (run_merging w t tk Ht s Hf).
      pose proof (waiting_set_frame (print (chat_ctx w) w) w t tk
                    (Finished None) eq_refl Ht) as Hw.
      unfold on_line_155 in Hw. rewrite Hf in Hw.
      unfold merged. cbn in Hw |- *. rewrite length_app. cbn. lia.
    + cbn [step]. rewrite Ht, Hf.
      destruct (run_callbacks_fields t (t_callbacks tk) w)
        as (Hc & Hp & _ & Hs & _).
      pose proof (waiting_set_frame
                    (foldl (λ w cb, run_callback t cb w) w (t_callbacks tk))
                    w t tk (Retired o) Hp Ht) as Hw.
      unfold on_line_155 in Hw. rewrite Hf in Hw.
      unfold merged. cbn in Hw |- *. rewrite Hs, Hc. lia.
    + cbn [step]. rewrite Ht, Hf. unfold _image_received. rewrite Hf. lia.
  - unfold frame_of.
    destruct (pool w !! t) as [tk|] eqn:Ht; [|cbn; rewrite Ht; lia].
    cbn [fmap option_fmap option_map].
    destruct (t_frame tk) as [|b p|s|o|o] eqn:Hf;
      try (cbn [step]; rewrite Ht; unfold _image_received; rewrite Hf; lia).
    + rewrite (fail_in_try w t tk Ht e) by (left; eauto).
      pose proof (waiting_set_frame (logger (LogError e) w) w t tk
                    (Finished None) eq_refl Ht) as Hw.
      unfold on_line_155 in Hw. rewrite Hf in Hw.
      unfold merged. cbn in Hw |- *. lia.
    + rewrite (fail_in_try w t tk Ht e) by (right; eauto).
      pose proof (waiting_set_frame (logger (LogError e) w) w t tk
                    (Finished None) eq_refl Ht) as Hw.
      unfold on_line_155 in Hw. rewrite Hf in Hw.
      unfold merged. cbn in Hw |- *. lia.
Qed.

(** The account stays in balance along every interleaving. *)
Lemma exec_conserves evs : ∀ w,
  length (chat_ctx (exec w evs)) + merged w =
  length (chat_ctx w) + merged (exec w evs) + update_failures w evs.
Proof.
  induction evs as [|ev evs IH]; intros w; [cbn; lia|].
  rewrite exec_cons. specialize (IH (step w ev)).
  pose proof (step_conserves w ev) as Hs.
  cbn [update_failures] in Hs |- *. lia.
Qed.

(** ** Assembly (lines 142-144) *)

(** C2: the chunks of one reader are assembled into their exact
    concatenation, in delivery order.  For a task created for a reader whose
    chunks are [c1..cn], in every interleaving in which the task has been
    started and has received its n chunks (whatever other streams and tasks
    do in between), the task's buffer is [c1 ++ ... ++ cn] with no chunk
    left, and its next resumption builds the image message from exactly
    these bytes. *)
Theorem assembled_payload_is_concatenation w t tk name evs :
  pool w !! t = Some tk → t_frame tk = Created →
  info_name (t_reader tk) = Ok name →
  own t evs = replicate (S (length (chunks (t_reader tk)))) (Run t) →
  let w' := exec w evs in
  pool w' !! t =
    Some (with_frame (Draining (concat (chunks (t_reader tk))) []) tk) ∧
  frame_of (step w' (Run t)) t =
    Some (Merging (chat_ctx w' ++
                   [image_message (concat (chunks (t_reader tk)))])).
Proof.
  intros Ht Hf Hn Hown w'.
  pose proof (start_interleaved t evs w tk name _ Ht Hf Hn Hown (le_n _))
    as Hd.
  rewrite firstn_all, drop_all in Hd. split; [done|].
  rewrite (run_exhausted w' t _ Hd (concat (chunks (t_reader tk))) eq_refl).
  eapply frame_of_with_frame. by apply (lookup_set_frame w' t _ Hd).
Qed.

Lemma assembled_payload_witness :
  pool (exec Sample.announced Sample.draining) !! 0 =
    Some (with_frame (Draining [x89; "P"; "N"; "G"; "A"; "B"]%byte [])
                     (new_task Sample.alice "alice")) ∧
  frame_of (step (exec Sample.announced Sample.draining) (Run 0)) 0 =
    Some (Merging [image_message [x89; "P"; "N"; "G"; "A"; "B"]%byte]).
Proof.
  apply (assembled_payload_is_concatenation
           Sample.announced 0 (new_task Sample.alice "alice") "a.png"
           Sample.draining); reflexivity.
Defined.

(** ** The image message (lines 146-155) *)

Lemma prefix_append (s s' : string) : String.prefix s (s +:+ s') = true.
Proof.
  induction s as [|c s IH]; [by destruct s'|].
  change (String c s +:+ s') with (String c (s +:+ s')). cbn [String.prefix].
  destruct (Ascii.ascii_dec c c); [done|congruence].
Qed.

(** C3: the message that a task appends for the bytes it assembled has role
    "user" and one image item, the string "data:image/png;base64," followed
    by the base64 encoding of the bytes.  For a task that has drained its
    reader with buffer [image_bytes], the next resumption builds the
    snapshot of lines 146-154, the context it read followed by that
    message, and makes it the context on line 155; whatever happens
    afterwards, the message stays where it was put. *)
Theorem image_message_is_png_data_url w t tk image_bytes evs :
  pool w !! t = Some tk → t_frame tk = Draining image_bytes [] →
  let image := "data:image/png;base64," +:+ Base64.b64encode image_bytes in
  let m := mkChatMessage "user" [ImageContent image] in
  let w' := step w (Run t) in
  frame_of w' t = Some (Merging (chat_ctx w ++ [m])) ∧
  chat_ctx w' = chat_ctx w ++ [m] ∧
  chat_ctx (exec w' evs) !! length (chat_ctx w) = Some m ∧
  String.prefix "data:image/png;base64," image = true.
Proof.
  intros Ht Hf image m w'. subst w'.
  rewrite (run_exhausted w t tk Ht image_bytes Hf).
  change (image_message image_bytes) with m.
  split_and!; [|done| |apply prefix_append].
  - eapply frame_of_with_frame. by apply (lookup_set_frame w).
  - destruct (exec_grows evs
                (set_frame t tk (Merging (chat_ctx w ++ [m]))
                   (update_chat_ctx (chat_ctx w ++ [m]) w)))
      as (new & -> & _).
    cbn. rewrite <- app_assoc. by apply list_lookup_middle.
Qed.

Lemma image_message_witness :
  let w := exec Sample.announced Sample.draining in
  let m :=
    mkChatMessage "user" [ImageContent "data:image/png;base64,iVBOR0FC"] in
  frame_of (step w (Run 0)) 0 = Some (Merging ([] ++ [m])) ∧
  chat_ctx (step w (Run 0)) = [] ++ [m] ∧
  chat_ctx (exec (step w (Run 0)) [Run 1; Run 1; Run 0]) !! 0 = Some m ∧
  String.prefix "data:image/png;base64," "data:image/png;base64,iVBOR0FC"
    = true.
Proof.
  apply (image_message_is_png_data_url
           (exec Sample.announced Sample.draining) 0
           (with_frame (Draining [x89; "P"; "N"; "G"; "A"; "B"]%byte [])
                       (new_task Sample.alice "alice"))
           [x89; "P"; "N"; "G"; "A"; "B"]%byte [Run 1; Run 1; Run 0]);
    reflexivity.
Defined.

Lemma run_callback_pool t cb w : pool (run_callback t cb w) = pool w.
Proof. destruct cb; cbn. by destruct (list_remove t (_tasks w)). Qed.

Lemma lookup_new_task w r who :
  pool (_image_received_handler r who w) !! length (pool w) =
    Some (new_task r who).
Proof. rewrite image_received_handler_spec; cbn. by apply list_lookup_middle. Qed.

Lemma retired_not_tracked w t tk o :
  tracked_ok w → pool w !! t = Some tk → t_frame tk = Retired o →
  t ∉ _tasks w.
Proof.
  intros [_ Hiff _] Ht Hf (tk' & Ht' & Hr)%Hiff. simplify_eq.
  unfold retired in Hr. by rewrite Hf in Hr.
Qed.

(** C9: a reader that ends without a chunk is merged like any other.  The
    task created for it runs lines 140-156 in three resumptions and appends
    the message whose image is "data:image/png;base64," with nothing after
    the comma; it returns normally and logs no error, and one more merge
    has been done. *)
Theorem empty_stream_is_merged w name who :
  let t := length (pool w) in
  let w' :=
    exec (_image_received_handler (mkReader (Ok name) []) who w)
         [Run t; Run t; Run t] in
  chat_ctx w' =
    chat_ctx w ++ [mkChatMessage "user" [ImageContent "data:image/png;base64,"]] ∧
  frame_of w' t = Some (Finished None) ∧
  log w' = log w ++ [LogInfo who name] ∧
  merged w' = S (merged w).
Proof.
  intros t w'. subst w'.
  set (r := mkReader (Ok name) []).
  pose proof (lookup_new_task w r who) as H0. fold t in H0.
  set (w0 := _image_received_handler r who w) in *.
  assert (chat_ctx w0 = chat_ctx w ∧ log w0 = log w ∧ stdout w0 = stdout w)
    as (Hc & Hl & Hs) by (unfold w0; by rewrite image_received_handler_spec).
  assert (merged w0 = merged w) as Hm.
  { unfold merged, waiting. rewrite Hs. f_equal. unfold w0.
    rewrite image_received_handler_spec.
    exact (waiting_new_tasks r who 1 (pool w)). }
  pose proof (exec_conserves [Run t; Run t; Run t] w0) as Hcons.
  cbn [update_failures] in Hcons.
  cut (chat_ctx (exec w0 [Run t; Run t; Run t]) =
         chat_ctx w ++ [image_message []] ∧
       frame_of (exec w0 [Run t; Run t; Run t]) t = Some (Finished None) ∧
       log (exec w0 [Run t; Run t; Run t]) = log w ++ [LogInfo who name]).
  { intros (G1 & G2 & G3). split_and!; [done..|].
    rewrite G1, length_app, Hc, Hm in Hcons. cbn [length] in Hcons. lia. }
  clear Hcons. rewrite !exec_cons.
  rewrite (run_created w0 t _ H0 name eq_refl eq_refl).
  set (w1 := set_frame _ _ _ _).
  assert (pool w1 !! t = Some (with_frame (Draining [] []) (new_task r who)))
    as H1 by (by apply (lookup_set_frame w0)).
  rewrite (run_exhausted w1 t _ H1 [] eq_refl).
  set (w2 := set_frame _ _ _ _).
  assert (pool w2 !! t =
          Some (with_frame (Merging (chat_ctx w1 ++ [image_message []]))
                           (new_task r who)))
    as H2 by (by apply (lookup_set_frame w1 t _ H1)).
  rewrite (run_merging w2 t _ H2 _ eq_refl).
  split_and!.
  - cbn -[w0 t]. by rewrite Hc.
  - eapply frame_of_with_frame. by apply (lookup_set_frame w2 t _ H2).
  - cbn -[w0 t]. by rewrite Hl.
Qed.

(** ** Errors (lines 140 and 157-158) *)

(** C10: [reader.info.name] is evaluated on line 140, before the [try].
    For a reader whose metadata access raises [e], the first resumption of
    the task ends it with the exception [e] set on the task: nothing is
    logged (neither the info line nor the error line of line 158) and the
    context is untouched. *)
Theorem metadata_error_escapes w e cs who :
  let t := length (pool w) in
  let w' :=
    step (_image_received_handler (mkReader (Raise e) cs) who w)
         (Run t) in
  frame_of w' t = Some (Finished (Some e)) ∧
  log w' = log w ∧
  chat_ctx w' = chat_ctx w.
Proof.
  intros t w'. subst w'.
  set (r := mkReader (Raise e) cs).
  pose proof (lookup_new_task w r who) as H0. fold t in H0.
  rewrite (run_created_raises _ t _ H0 e eq_refl eq_refl).
  split_and!.
  - eapply frame_of_with_frame. by apply (lookup_set_frame _ t _ H0).
  - by rewrite image_received_handler_spec.
  - by rewrite image_received_handler_spec.
Qed.

(** C5: an error raised while the task assembles chunks or merges is
    caught in the task.  For a task suspended inside the [try] (in the loop
    of line 143 or on line 155), when what it waits for raises [e]: the task
    ends by returning, with no exception set on it; line 158 logs [e]; no
    other task, the handlers, the tracking list and the context are
    touched.  When its done callback then runs, after any events of other
    tasks, the task is retired and is no longer in the tracking list. *)
Theorem failure_is_contained w t tk e evs :
  tracked_ok w → pool w !! t = Some tk →
  (∃ b p, t_frame tk = Draining b p) ∨ (∃ s, t_frame tk = Merging s) →
  own t evs = [] →
  let w1 := step w (Fail t e) in
  let w2 := step (exec w1 evs) (Run t) in
  frame_of w1 t = Some (Finished None) ∧
  log w1 = log w ++ [LogError e] ∧
  (∀ t', t' ≠ t → pool w1 !! t' = pool w !! t') ∧
  handlers w1 = handlers w ∧ _tasks w1 = _tasks w ∧
  chat_ctx w1 = chat_ctx w ∧
  frame_of w2 t = Some (Retired None) ∧
  t ∉ _tasks w2.
Proof.
  intros Hok Ht Hf Hown w1 w2.
  assert (w1 = set_frame t tk (Finished None) (logger (LogError e) w)) as Hw1
    by (by apply fail_in_try).
  assert (pool w1 !! t = Some (with_frame (Finished None) tk)) as H1
    by (rewrite Hw1; by apply (lookup_set_frame w)).
  pose proof (exec_not_woken t evs w1 _ Hown H1) as H1'.
  assert (w2 = set_frame t (with_frame (Finished None) tk) (Retired None)
                 (run_callback t remove_from_tasks (exec w1 evs))) as Hw2.
  { apply (run_finished _ t _ H1' None eq_refl).
    exact (tracked_callbacks w Hok t tk Ht). }
  assert (pool w2 !! t = Some (with_frame (Retired None) tk)) as H2.
  { rewrite Hw2. apply (lookup_set_frame _ t _ H1'), run_callback_pool. }
  assert (tracked_ok w2) as Hok2.
  { unfold w2, w1. by apply tracked_ok_step, tracked_ok_exec, tracked_ok_step. }
  split_and!.
  - by eapply frame_of_with_frame.
  - by rewrite Hw1.
  - intros t' Hne. rewrite Hw1. by rewrite set_frame_lookup_ne.
  - by rewrite Hw1.
  - by rewrite Hw1.
  - by rewrite Hw1.
  - by eapply frame_of_with_frame.
  - by eapply retired_not_tracked.
Qed.

Lemma failure_is_contained_witness :
  let w := exec Sample.announced Sample.draining in
  let w1 := step w (Fail 0 (Exception "stream reset")) in
  let w2 := step (exec w1 [Run 1; Run 1]) (Run 0) in
  frame_of w1 0 = Some (Finished None) ∧
  log w1 = log w ++ [LogError (Exception "stream reset")] ∧
  (∀ t', t' ≠ 0 → pool w1 !! t' = pool w !! t') ∧
  handlers w1 = handlers w ∧ _tasks w1 = _tasks w ∧
  chat_ctx w1 = chat_ctx w ∧
  frame_of w2 0 = Some (Retired None) ∧
  0 ∉ _tasks w2.
Proof.
  apply (failure_is_contained
           (exec Sample.announced Sample.draining) 0
           (with_frame (Draining [x89; "P"; "N"; "G"; "A"; "B"]%byte [])
                       (new_task Sample.alice "alice"))
           (Exception "stream reset") [Run 1; Run 1]).
  - apply tracked_ok_exec, tracked_ok_exec, tracked_ok_session.
  - reflexivity.
  - left. by eexists _, _.
  - reflexivity.
Defined.

(** ** The stream handler (lines 126-133) *)

(** C6: the handler creates the task and returns; nothing of the transfer
    has happened when it does.  After the announcement of a stream on the
    channel of [on_enter], the pool has one more task, not started (its
    frame is [Created], its reader untouched), its handle is tracked, and
    the context, the log, the output and every earlier task are as before;
    a second stream announced right away is accepted in the same way while
    the first task has not run at all. *)
Theorem stream_handler_never_blocks w r who r' who' :
  handlers w = [("test", on_enter_closure)] →
  let w' := step w (Incoming "test" r who) in
  pool w' = pool w ++ [new_task r who] ∧
  _tasks w' = _tasks w ++ [length (pool w)] ∧
  chat_ctx w' = chat_ctx w ∧ log w' = log w ∧ stdout w' = stdout w ∧
  pool (step w' (Incoming "test" r' who')) =
    pool w ++ [new_task r who; new_task r' who'].
Proof.
  intros Hh w'. subst w'. cbn [step]. rewrite !dispatch_spec. cbn.
  rewrite Hh. cbn. by rewrite <- app_assoc.
Qed.

Lemma stream_handler_witness :
  let w := session [] in
  let w' := step w (Incoming "test" Sample.alice "alice") in
  pool w' = pool w ++ [new_task Sample.alice "alice"] ∧
  _tasks w' = _tasks w ++ [length (pool w)] ∧
  chat_ctx w' = chat_ctx w ∧ log w' = log w ∧ stdout w' = stdout w ∧
  pool (step w' (Incoming "test" Sample.bob "bob")) =
    pool w ++ [new_task Sample.alice "alice"; new_task Sample.bob "bob"].
Proof.
  apply (stream_handler_never_blocks (session []) Sample.alice "alice"
           Sample.bob "bob"). reflexivity.
Defined.

(** ** Registration (line 133) *)

Lemma register_NoDup topic h w :
  NoDup (handlers w).*1 →
  match register_byte_stream_handler topic h w with
  | Ok w' => NoDup (handlers w').*1 ∧ pool w' = pool w
  | Raise _ => topic ∈ (handlers w).*1
  end.
Proof.
  intros Hnd. unfold register_byte_stream_handler.
  destruct (decide _) as [Hin|Hin]; [done|]. cbn. split; [|done].
  rewrite fmap_app. apply NoDup_app. split_and!; [done| |apply NoDup_singleton].
  intros x Hx ->%list_elem_of_singleton. done.
Qed.

Lemma register_all_NoDup regs : ∀ w,
  NoDup (handlers w).*1 →
  NoDup (handlers (register_all regs w)).*1 ∧
  pool (register_all regs w) = pool w.
Proof.
  induction regs as [|[topic h] regs IH]; intros w Hnd; [done|].
  cbn. pose proof (register_NoDup topic h w Hnd) as Hr.
  destruct (register_byte_stream_handler topic h w) as [w1|e].
  - destruct Hr as [Hnd1 Hp]. destruct (IH w1 Hnd1) as [? Hp1].
    split; [done|]. by rewrite <- Hp, <- Hp1.
  - by apply IH.
Qed.

Lemma filter_absent (topic : string) (hs : list (string * Handler)) :
  topic ∉ hs.*1 → filter (λ e, e.1 = topic) hs = [].
Proof.
  induction hs as [|[name h] hs IH]; intros Hn; [done|].
  rewrite fmap_cons, not_elem_of_cons in Hn. destruct Hn as [Hne Hn].
  rewrite filter_cons_False by (cbn; by intros ->). by apply IH.
Qed.

Lemma filter_NoDup_fst (topic : string) (hs : list (string * Handler)) :
  NoDup hs.*1 → length (filter (λ e, e.1 = topic) hs) ≤ 1.
Proof.
  induction hs as [|[name h] hs IH]; intros Hnd; [cbn; lia|].
  rewrite fmap_cons in Hnd. apply NoDup_cons in Hnd as [Hn Hnd].
  rewrite filter_cons; cbn [fst].
  destruct (decide (name = topic)) as [->|Hne]; [|by apply IH].
  cbn [length]. by rewrite filter_absent.
Qed.

(** C8: a channel never has two handlers.  Whatever registrations are
    requested of a room that starts without handlers, a stream is dispatched
    to at most one handler (it creates at most one task).  [on_enter] makes
    one registration, for the channel "test"; after it a stream on "test"
    creates exactly one task; a second registration for "test", and so a
    second [on_enter], is rejected and leaves everything as it was. *)
Theorem registration_never_double_dispatches w regs topic h r who :
  handlers w = [] →
  let w1 := (on_enter w).1 in
  length (pool (step (register_all regs w) (Incoming topic r who)))
    ≤ S (length (pool w)) ∧
  handlers w1 = [("test", on_enter_closure)] ∧
  (on_enter w).2 = None ∧
  pool (step w1 (Incoming "test" r who)) = pool w ++ [new_task r who] ∧
  register_byte_stream_handler "test" h w1 =
    Raise (Exception "byte stream handler already set") ∧
  (on_enter w1).1 = w1 ∧
  (on_enter w1).2 = Some (Exception "byte stream handler already set").
Proof.
  intros Hh w1. split_and!.
  - destruct (register_all_NoDup regs w) as [Hnd Hp].
    { rewrite Hh. constructor. }
    cbn [step]. rewrite dispatch_spec; cbn.
    rewrite length_app, length_replicate, Hp.
    pose proof (filter_NoDup_fst topic _ Hnd). lia.
  - unfold w1, on_enter, register_byte_stream_handler. by rewrite Hh.
  - unfold on_enter, register_byte_stream_handler. by rewrite Hh.
  - cbn [step]. rewrite dispatch_spec.
    unfold w1, on_enter, register_byte_stream_handler. by rewrite Hh.
  - unfold w1, on_enter, register_byte_stream_handler. by rewrite Hh.
  - unfold w1, on_enter, register_byte_stream_handler. by rewrite Hh.
  - unfold w1, on_enter, register_byte_stream_handler. by rewrite Hh.
Qed.

Lemma registration_witness :
  let w := init [] in
  let regs := [("test", on_enter_closure);
               ("test", on_enter_closure)] in
  let w1 := (on_enter w).1 in
  length (pool (step (register_all regs w)
                     (Incoming "test" Sample.alice "alice")))
    ≤ S (length (pool w)) ∧
  handlers w1 = [("test", on_enter_closure)] ∧
  (on_enter w).2 = None ∧
  pool (step w1 (Incoming "test" Sample.alice "alice")) =
    pool w ++ [new_task Sample.alice "alice"] ∧
  register_byte_stream_handler "test" on_enter_closure w1 =
    Raise (Exception "byte stream handler already set") ∧
  (on_enter w1).1 = w1 ∧
  (on_enter w1).2 = Some (Exception "byte stream handler already set").
Proof.
  apply (registration_never_double_dispatches (init [])
           [("test", on_enter_closure);
            ("test", on_enter_closure)]
           "test" on_enter_closure Sample.alice "alice").
  reflexivity.
Defined.

(** ** Merging (lines 146-155) *)

(** A task that an event does not wake is, after the event, as it was
    before, or it is the new task of the stream that the event announces. *)
Lemma step_other_task_inv w ev t tk :
  target ev ≠ Some t → pool (step w ev) !! t = Some tk →
  pool w !! t = Some tk ∨ t_frame tk = Created.
Proof.
  intros Hne Ht. destruct ev as [topic r who|t'|t' e]; cbn in Ht.
  - rewrite dispatch_spec in Ht; cbn in Ht.
    apply lookup_app_Some in Ht as [?|[_ Ht]]; [by left|].
    apply lookup_replicate in Ht as [-> _]. by right.
  - assert (t' ≠ t) by (intros ->; by apply Hne). left.
    destruct (pool w !! t') as [tk'|] eqn:Ht'; [|done].
    destruct (t_frame tk') eqn:Hf;
      try (destruct (image_received_pool w t' tk' Value) as [Hp|[f Hp]];
           rewrite Hp in Ht; [done|by rewrite list_lookup_insert_ne in Ht]).
    cbn in Ht. rewrite list_lookup_insert_ne in Ht by done.
    by destruct (run_callbacks_fields t' (t_callbacks tk') w) as (_ & <- & _).
  - assert (t' ≠ t) by (intros ->; by apply Hne). left.
    destruct (pool w !! t') as [tk'|] eqn:Ht'; [|done].
    destruct (image_received_pool w t' tk' (Throw e)) as [Hp|[f Hp]];
      rewrite Hp in Ht; [done|by rewrite list_lookup_insert_ne in Ht].
Qed.



(** When both tasks have read the context and made the call of line 155
    before either is resumed, both messages are in the context, in the
    order of the calls, and both prints of line 156 show both. *)
Example racing_keeps_both :
  let w' := exec Sample.announced Sample.racing in
  chat_ctx w' =
    [image_message [x89; "P"; "N"; "G"; "A"; "B"]%byte;
     image_message ["C"]%byte] ∧
  stdout w' = [chat_ctx w'; chat_ctx w'] ∧
  frame_of w' 0 = Some (Retired None) ∧
  frame_of w' 1 = Some (Retired None).
Proof. by split_and!. Qed.

(** ** A task that fails while it drains its reader *)

Lemma step_handlers w ev : handlers (step w ev) = handlers w.
Proof.
  destruct ev as [topic r who|t|t e]; cbn.
  - by rewrite dispatch_spec.
  - destruct (pool w !! t) as [tk|]; [|done].
    destruct (t_frame tk);
      try (by destruct (image_received_shape w t tk Value) as (_ & -> & _)).
    cbn. by destruct (run_callbacks_fields t (t_callbacks tk) w)
      as (_ & _ & -> & _).
  - destruct (pool w !! t) as [tk|]; [|done].
    by destruct (image_received_shape w t tk (Throw e)) as (_ & -> & _).
Qed.

(** Waking a task changes no other task and creates none. *)
Lemma step_wake_pool w ev t :
  target ev = Some t →
  length (pool (step w ev)) = length (pool w) ∧
  ∀ t', t' ≠ t → pool (step w ev) !! t' = pool w !! t'.
Proof.
  intros Htg.
  assert (∀ w', (pool w' = pool w ∨ ∃ x, pool w' = <[t := x]> (pool w)) →
                length (pool w') = length (pool w) ∧
                ∀ t', t' ≠ t → pool w' !! t' = pool w !! t') as Hgen.
  { intros w' [->|[x ->]]; [done|]. rewrite length_insert. split; [done|].
    intros t' Hne. by rewrite list_lookup_insert_ne. }
  apply Hgen. destruct ev as [topic r who|t0|t0 e]; simplify_eq/=.
  - destruct (pool w !! t) as [tk|]; [|by left].
    destruct (t_frame tk);
      try (destruct (image_received_pool w t tk Value) as [?|[f ?]];
           by eauto).
    right. cbn. eexists.
    by destruct (run_callbacks_fields t (t_callbacks tk) w) as (_ & -> & _).
  - destruct (pool w !! t) as [tk|]; [|by left].
    destruct (image_received_pool w t tk (Throw e)) as [?|[f ?]]; eauto.
Qed.

(** The task that an event wakes moves in the same way in two worlds that
    agree on the task and on the context. *)
Lemma step_own_congruence w1 w2 ev t :
  target ev = Some t → pool w1 !! t = pool w2 !! t →
  chat_ctx w1 = chat_ctx w2 →
  pool (step w1 ev) !! t = pool (step w2 ev) !! t.
Proof.
  intros Htg Hp Hc.
  destruct (pool w1 !! t) as [tk|] eqn:H1.
  2: { symmetry in Hp.
       destruct ev as [topic r who|t0|t0 e]; simplify_eq/=;
         rewrite H1, Hp; congruence. }
  symmetry in Hp.
  assert (t < length (pool w1)) by (by eapply lookup_lt_Some).
  assert (t < length (pool w2)) by (by eapply lookup_lt_Some).
  destruct tk as [r who cbs fr].
  destruct ev as [topic r0 who0|t0|t0 e]; simplify_eq/=; rewrite H1, Hp; cbn.
  - destruct fr as [|b [|c p]|s|o|o]; cbn; try destruct (info_name r); cbn;
      rewrite ?list_lookup_insert_eq, ?Hc, ?H1, ?Hp;
      rewrite ?(proj1 (proj2 (run_callbacks_fields _ _ _))); done.
  - destruct fr as [|b [|c p]|s|o|o]; cbn;
      rewrite ?list_lookup_insert_eq, ?H1, ?Hp; done.
Qed.

Lemma publishes_congruence w1 w2 ev :
  (∀ t, target ev = Some t → pool w1 !! t = pool w2 !! t) →
  chat_ctx w1 = chat_ctx w2 →
  publishes w1 ev = publishes w2 ev ∧ printed w1 ev = printed w2 ev.
Proof.
  intros H Hc. destruct ev as [topic r who|t|t e]; cbn; try done.
  unfold frame_of. by rewrite (H t eq_refl), Hc.
Qed.

Lemma same_but_step_other t w1 w2 ev :
  same_but t w1 w2 → target ev ≠ Some t →
  same_but t (step w1 ev) (step w2 ev).
Proof.
  intros (Hc & Hh & Hs & Hl & Hp) Hne.
  assert (publishes w1 ev = publishes w2 ev ∧ printed w1 ev = printed w2 ev)
    as [Hpub Hpri].
  { apply publishes_congruence; [|done]. intros t' Htg. apply Hp. congruence. }
  unfold same_but.
  rewrite !step_chat_ctx, !step_stdout, !step_handlers, Hpub, Hpri, Hc, Hs.
  split_and!; try done.
  - destruct (target ev) as [t'|] eqn:Htg.
    + destruct (step_wake_pool w1 ev t' Htg) as [-> _].
      by destruct (step_wake_pool w2 ev t' Htg) as [-> _].
    + destruct ev; simplify_eq/=. rewrite !dispatch_spec; cbn.
      by rewrite !length_app, Hh, Hl.
  - intros t'' Hne''. destruct (target ev) as [t'|] eqn:Htg.
    + destruct (decide (t'' = t')) as [->|Hne'].
      * apply step_own_congruence; [done| |done]. by apply Hp.
      * destruct (step_wake_pool w1 ev t' Htg) as [_ ->]; [|done].
        destruct (step_wake_pool w2 ev t' Htg) as [_ ->]; [|done].
        by apply Hp.
    + destruct ev; simplify_eq/=. rewrite !dispatch_spec; cbn. rewrite Hh.
      destruct (decide (t'' < length (pool w1))).
      * rewrite !lookup_app_l by lia. by apply Hp.
      * rewrite !lookup_app_r by lia. by rewrite Hl.
Qed.

Lemma same_but_step_own t w1 w2 ev :
  same_but t w1 w2 → target ev = Some t →
  publishes w1 ev = None → printed w1 ev = None →
  same_but t (step w1 ev) w2.
Proof.
  intros (Hc & Hh & Hs & Hl & Hp) Htg Hpub Hpri. unfold same_but.
  rewrite step_chat_ctx, step_stdout, step_handlers, Hpub, Hpri; cbn.
  rewrite app_nil_r. destruct (step_wake_pool w1 ev t Htg) as [-> Ho].
  split_and!; try done. intros t' Hne. rewrite Ho by done. by apply Hp.
Qed.

Lemma others_cons_True t ev evs :
  wakes t ev → others t (ev :: evs) = others t evs.
Proof. intros H. unfold others. by rewrite filter_cons_False by tauto. Qed.

Lemma others_cons_False t ev evs :
  ¬ wakes t ev → others t (ev :: evs) = ev :: others t evs.
Proof. intros H. unfold others. by rewrite filter_cons_True. Qed.

Lemma publishes_frame w t tk :
  pool w !! t = Some tk → (∀ b, t_frame tk ≠ Draining b []) →
  publishes w (Run t) = None.
Proof.
  intros Ht Hf. cbn. unfold frame_of. rewrite Ht; cbn.
  destruct (t_frame tk) as [|b [|c p]|s|o|o]; try done. by destruct (Hf b).
Qed.

Lemma printed_frame w t tk :
  pool w !! t = Some tk → (∀ s, t_frame tk ≠ Merging s) →
  printed w (Run t) = None.
Proof.
  intros Ht Hf. cbn. unfold frame_of. rewrite Ht; cbn.
  destruct (t_frame tk); try done. by destruct (Hf ctx).
Qed.

Lemma not_wakes_target t ev : ¬ wakes t ev → target ev ≠ Some t.
Proof. by rewrite wakes_target. Qed.

(** Events that do not wake task [t] have the same effect whatever task [t]
    is doing. *)
Lemma phase_rest t evs : ∀ w1 w2 tk,
  same_but t w1 w2 → pool w1 !! t = Some tk → own t evs = [] →
  same_but t (exec w1 evs) (exec w2 (others t evs)) ∧
  pool (exec w1 evs) !! t = Some tk.
Proof.
  induction evs as [|ev evs IH]; intros w1 w2 tk Hsb Ht Hown; [done|].
  destruct (decide (wakes t ev)) as [Hw|Hw].
  - by rewrite own_cons_True in Hown.
  - rewrite own_cons_False in Hown by done.
    rewrite others_cons_False, !exec_cons by done.
    apply IH; [|by apply step_not_woken|done].
    by apply same_but_step_other, not_wakes_target.
Qed.

Lemma phase_finished t evs : ∀ w1 w2 tk o,
  same_but t w1 w2 → pool w1 !! t = Some tk → t_frame tk = Finished o →
  t_callbacks tk = [remove_from_tasks] → own t evs = [Run t] →
  same_but t (exec w1 evs) (exec w2 (others t evs)) ∧
  pool (exec w1 evs) !! t = Some (with_frame (Retired o) tk).
Proof.
  induction evs as [|ev evs IH]; intros w1 w2 tk o Hsb Ht Hf Hcb Hown; [done|].
  destruct (decide (wakes t ev)) as [Hw|Hw].
  - rewrite own_cons_True in Hown by done. injection Hown as -> Hown.
    rewrite others_cons_True, exec_cons by done.
    apply phase_rest; [|rewrite (run_finished w1 t tk Ht o Hf Hcb)|done].
    + apply same_but_step_own; [done..| |].
      * apply (publishes_frame w1 t tk Ht). intros s. by rewrite Hf.
      * apply (printed_frame w1 t tk Ht). intros s. by rewrite Hf.
    + apply (lookup_set_frame w1 t tk Ht), run_callback_pool.
  - rewrite own_cons_False in Hown by done.
    rewrite others_cons_False, !exec_cons by done.
    apply IH; [|by apply step_not_woken|done..].
    by apply same_but_step_other, not_wakes_target.
Qed.

Lemma phase_draining t e evs : ∀ w1 w2 tk b p k,
  same_but t w1 w2 → pool w1 !! t = Some tk → t_frame tk = Draining b p →
  t_callbacks tk = [remove_from_tasks] → k ≤ length p →
  own t evs = replicate k (Run t) ++ [Fail t e; Run t] →
  same_but t (exec w1 evs) (exec w2 (others t evs)) ∧
  pool (exec w1 evs) !! t = Some (with_frame (Retired None) tk).
Proof.
  induction evs as [|ev evs IH]; intros w1 w2 tk b p k Hsb Ht Hf Hcb Hk Hown.
  { by destruct k. }
  destruct (decide (wakes t ev)) as [Hw|Hw].
  - rewrite own_cons_True in Hown by done.
    rewrite others_cons_True, exec_cons by done.
    assert (printed w1 (Run t) = None) as Hpri.
    { apply (printed_frame w1 t tk Ht). intros s. by rewrite Hf. }
    destruct k as [|k]; injection Hown as -> Hown.
    + assert (step w1 (Fail t e) =
              set_frame t tk (Finished None) (logger (LogError e) w1)) as ->.
      { apply fail_in_try; [done|]. left. by exists b, p. }
      apply (phase_finished t evs _ w2 (with_frame (Finished None) tk) None);
        [|by apply (lookup_set_frame w1)|done..].
      rewrite <- (fail_in_try w1 t tk Ht e) by (left; by exists b, p).
      by apply same_but_step_own.
    + destruct p as [|c p]; [cbn in Hk; lia|].
      apply (IH _ w2 (with_frame (Draining (b ++ c) p) tk) (b ++ c) p k);
        [|rewrite (run_chunk w1 t tk Ht b c p Hf);
          by apply (lookup_set_frame w1)|done|done|cbn in Hk; lia|done].
      apply same_but_step_own; [done..| |done].
      apply (publishes_frame w1 t tk Ht). intros b'. by rewrite Hf.
  - rewrite own_cons_False in Hown by done.
    rewrite others_cons_False, !exec_cons by done.
    apply (IH _ _ tk b p k); [|by apply step_not_woken|done..].
    by apply same_but_step_other, not_wakes_target.
Qed.

Lemma phase_created t e evs : ∀ w1 w2 tk name k,
  same_but t w1 w2 → pool w1 !! t = Some tk → t_frame tk = Created →
  info_name (t_reader tk) = Ok name →
  t_callbacks tk = [remove_from_tasks] →
  k ≤ length (chunks (t_reader tk)) →
  own t evs = replicate (S k) (Run t) ++ [Fail t e; Run t] →
  same_but t (exec w1 evs) (exec w2 (others t evs)) ∧
  pool (exec w1 evs) !! t = Some (with_frame (Retired None) tk).
Proof.
  induction evs as [|ev evs IH];
    intros w1 w2 tk name k Hsb Ht Hf Hn Hcb Hk Hown; [done|].
  destruct (decide (wakes t ev)) as [Hw|Hw].
  - rewrite own_cons_True in Hown by done. injection Hown as -> Hown.
    rewrite others_cons_True, exec_cons by done.
    apply (phase_draining t e evs _ w2
             (with_frame (Draining [] (chunks (t_reader tk))) tk)
             [] (chunks (t_reader tk)) k);
      [|rewrite (run_created w1 t tk Ht name Hf Hn);
        by apply (lookup_set_frame w1)|done..].
    apply same_but_step_own; [done..| |].
    + apply (publishes_frame w1 t tk Ht). intros s. by rewrite Hf.
    + apply (printed_frame w1 t tk Ht). intros s. by rewrite Hf.
  - rewrite own_cons_False in Hown by done.
    rewrite others_cons_False, !exec_cons by done.
    apply (IH _ _ tk name k); [|by apply step_not_woken|done..].
    by apply same_but_step_other, not_wakes_target.
Qed.

Lemma same_but_refl t w : same_but t w w.
Proof. done. Qed.

(** C4: a task whose reader raises while it is drained leaves the context
    alone and is retired.  For a task that is started, receives [k] of its
    chunks, is then failed with [e] and has its done callback run, with any
    events of other streams and tasks in between: the final context is what
    the other events alone produce (when there are none, the context the
    task found); the task is retired having returned, and its handle is no
    longer in the tracking list. *)
Theorem failed_unit_leaves_context w t tk name k e evs :
  tracked_ok w → pool w !! t = Some tk → t_frame tk = Created →
  info_name (t_reader tk) = Ok name →
  k ≤ length (chunks (t_reader tk)) →
  own t evs = replicate (S k) (Run t) ++ [Fail t e; Run t] →
  let w' := exec w evs in
  chat_ctx w' = chat_ctx (exec w (others t evs)) ∧
  (others t evs = [] → chat_ctx w' = chat_ctx w) ∧
  frame_of w' t = Some (Retired None) ∧
  t ∉ _tasks w'.
Proof.
  intros Hok Ht Hf Hn Hk Hown w'.
  destruct (phase_created t e evs w w tk name k (same_but_refl t w) Ht Hf Hn
              (tracked_callbacks w Hok t tk Ht) Hk Hown)
    as [(Hc & _) Hr].
  fold w' in Hc, Hr. split_and!.
  - done.
  - intros Ho. by rewrite Hc, Ho.
  - by eapply frame_of_with_frame.
  - eapply (retired_not_tracked w' t _ None); [|done..].
    by apply tracked_ok_exec.
Qed.

Lemma failed_unit_witness :
  let w' := exec Sample.announced Sample.failing in
  chat_ctx w' = chat_ctx (exec Sample.announced (others 0 Sample.failing)) ∧
  (others 0 Sample.failing = [] → chat_ctx w' = chat_ctx Sample.announced) ∧
  frame_of w' 0 = Some (Retired None) ∧
  0 ∉ _tasks w'.
Proof.
  apply (failed_unit_leaves_context
           Sample.announced 0 (new_task Sample.alice "alice") "a.png" 1
           (Exception "stream reset") Sample.failing).
  - apply tracked_ok_exec, tracked_ok_session.
  - reflexivity.
  - reflexivity.
  - reflexivity.
  - cbn. lia.
  - reflexivity.
Defined.

(** ** Two images at once *)








(** * Further properties of the code *)

(** ** The data reference of line 151 *)

Lemma length_append (s1 s2 : string) :
  String.length (s1 +:+ s2) = String.length s1 + String.length s2.
Proof.
  induction s1 as [|c s1 IH]; [done|].
  change (String c s1 +:+ s2) with (String c (s1 +:+ s2)). cbn. by rewrite IH.
Qed.

(** X1: the string built on line 151 is the fixed prefix followed by text
    from which [base64.b64decode] gives back exactly the image's bytes. *)
Theorem data_url_round_trip (image_bytes : bytes) :
  ∃ payload,
    data_url image_bytes = "data:image/png;base64," +:+ payload ∧
    Base64.b64decode payload = Some image_bytes.
Proof.
  exists (Base64.b64encode image_bytes). split; [done|].
  apply b64decode_b64encode.
Qed.

Lemma div3_step (n : nat) : (n + 3 + 2) / 3 = S ((n + 2) / 3).
Proof.
  replace (n + 3 + 2) with (n + 2 + 1 * 3) by lia.
  rewrite Nat.div_add by lia. lia.
Qed.

Lemma b64encode_length (s : bytes) :
  String.length (Base64.b64encode s) = 4 * ((length s + 2) / 3).
Proof.
  cut (String.length (Base64.b64encode s) = 4 * ((length s + 2) / 3) ∧
       (∀ a, String.length (Base64.b64encode (a :: s))
             = 4 * ((length (a :: s) + 2) / 3)) ∧
       (∀ a b, String.length (Base64.b64encode (a :: b :: s))
               = 4 * ((length (a :: b :: s) + 2) / 3))); [tauto|].
  induction s as [|c s (IH0 & IH1 & IH2)]; split_and!; try done.
  intros a b. cbn [Base64.b64encode String.length length]. rewrite IH0.
  replace (S (S (S (length s))) + 2) with (length s + 3 + 2) by lia.
  rewrite div3_step. lia.
Qed.

(** X2: the string built on line 151 has 22 characters for the prefix and
    four for every three bytes of the image, the last group rounded up:
    the encoding is always a whole number of four-character groups. *)
Theorem data_url_length (image_bytes : bytes) :
  String.length (data_url image_bytes) =
    22 + 4 * ((length image_bytes + 2) / 3).
Proof.
  unfold data_url. by rewrite length_append, b64encode_length.
Qed.

Lemma digit_is_b64_char (w k : N) : b64_char (Base64.digit (Base64.sextet w k)).
Proof. left. by rewrite value_sextet. Qed.

(** X3: after its prefix, the string built on line 151 holds only the 64
    digits of the base64 alphabet and the padding character. *)
Theorem data_url_alphabet (image_bytes : bytes) :
  ∃ payload,
    data_url image_bytes = "data:image/png;base64," +:+ payload ∧
    Forall b64_char (list_ascii_of_string payload).
Proof.
  exists (Base64.b64encode image_bytes). split; [done|].
  cut (Forall b64_char
         (list_ascii_of_string (Base64.b64encode image_bytes)) ∧
       (∀ a, Forall b64_char
               (list_ascii_of_string (Base64.b64encode (a :: image_bytes)))) ∧
       (∀ a b, Forall b64_char
                 (list_ascii_of_string
                    (Base64.b64encode (a :: b :: image_bytes)))));
    [tauto|].
  induction image_bytes as [|c s (IH0 & IH1 & IH2)]; split_and!; try done;
    intros a; try intros b;
    cbn [Base64.b64encode list_ascii_of_string];
    repeat (apply Forall_cons; split;
            [first [apply digit_is_b64_char|by right]|]);
    done.
Qed.

(** ** What holds in every state of a session *)

Lemma session_unfold ctx :
  session ctx =
  mkWorld ctx [] [] [("test", on_enter_closure)] [] []
          ["Briefly greet the user and offer your assistance."].
Proof. reflexivity. Qed.

(** X4: [self._tasks] is exactly the set of tasks in flight.  In every
    state that a session reaches, whatever the interleaving, the list has
    no duplicates and holds the handle of a task if and only if the task
    has been created and its done callback has not run yet. *)
Theorem tasks_are_the_units_in_flight ctx evs :
  let w := exec (session ctx) evs in
  NoDup (_tasks w) ∧
  ∀ t, t ∈ _tasks w ↔ ∃ tk, pool w !! t = Some tk ∧ retired tk = false.
Proof.
  intros w.
  destruct (tracked_ok_exec (session ctx) evs (tracked_ok_session ctx))
    as [Hnd Hiff _].
  done.
Qed.

Lemma image_received_log w t tk wake :
  ∃ l, log (_image_received w t tk wake) = log w ++ l ∧
       Forall (λ r, is_loop_error r = false) l.
Proof.
  unfold _image_received.
  destruct (t_frame tk) as [|b [|c p]|s|o|o], wake; cbn;
    try destruct (info_name (t_reader tk)); cbn;
    first [by exists []; rewrite app_nil_r
          |eexists [_]; split; [done|by apply Forall_singleton]].
Qed.

Lemma step_log w ev :
  tracked_ok w →
  ∃ l, log (step w ev) = log w ++ l ∧ Forall (λ r, is_loop_error r = false) l.
Proof.
  intros [Hnd Hiff Hcb]. destruct ev as [topic r who|t|t e]; cbn.
  - exists []. by rewrite dispatch_spec, app_nil_r.
  - destruct (pool w !! t) as [tk|] eqn:Ht;
      [|by exists []; rewrite app_nil_r].
    destruct (t_frame tk) eqn:Hf; try apply image_received_log.
    rewrite (Hcb t tk Ht). cbn.
    assert (t ∈ _tasks w) as Hin.
    { apply Hiff. exists tk. unfold retired. by rewrite Hf. }
    destruct (list_remove_elem t _ Hin) as (l' & -> & _). cbn.
    exists []. by rewrite app_nil_r.
  - destruct (pool w !! t) as [tk|] eqn:Ht;
      [|by exists []; rewrite app_nil_r].
    apply image_received_log.
Qed.

Lemma exec_log evs : ∀ w,
  tracked_ok w → Forall (λ r, is_loop_error r = false) (log w) →
  Forall (λ r, is_loop_error r = false) (log (exec w evs)).
Proof.
  induction evs as [|ev evs IH]; intros w Hok Hlog; [done|].
  rewrite exec_cons. apply IH; [by apply tracked_ok_step|].
  destruct (step_log w ev Hok) as (l & -> & Hl). by apply Forall_app.
Qed.

(** X5: the done callback of line 131 never fails.  In every state that a
    session reaches, the log holds no report of a callback that raised:
    [self._tasks.remove(t)] always finds the handle it removes. *)
Theorem done_callback_never_raises ctx evs :
  Forall (λ r, is_loop_error r = false) (log (exec (session ctx) evs)).
Proof.
  apply exec_log; [apply tracked_ok_session|].
  rewrite session_unfold. apply Forall_nil_2.
Qed.

(** A task that an event leaves suspended on line 155 has just made the
    call, with the snapshot that is now the context, or it was there before
    the event and the event did not wake it. *)
Lemma step_merging w ev t tk s :
  pool (step w ev) !! t = Some tk → t_frame tk = Merging s →
  (target ev = Some t ∧ publishes w ev = Some s) ∨
  (target ev ≠ Some t ∧ pool w !! t = Some tk).
Proof.
  intros Ht Hf. destruct (decide (target ev = Some t)) as [Heq|Hne].
  2: { right. split; [done|].
       destruct (step_other_task_inv w ev t tk Hne Ht) as [?|Hc]; [done|].
       by rewrite Hc in Hf. }
  left. split; [done|].
  destruct ev as [topic r who|t'|t' e]; simplify_eq/=.
  - unfold frame_of.
    destruct (pool w !! t) as [tk0|] eqn:Ht0.
    2: { apply lookup_ge_None in Ht0. apply lookup_lt_Some in Ht. lia. }
    assert (t < length (pool w)) by (by eapply lookup_lt_Some).
    destruct tk0 as [r who cbs fr]; cbn in *.
    destruct fr as [|b [|c p]|s0|o|o]; cbn in Ht;
      try destruct (info_name r); cbn in Ht;
      try rewrite list_lookup_insert_eq in Ht
        by (rewrite ?(proj1 (proj2 (run_callbacks_fields _ _ _))); done);
      by simplify_eq/=.
  - destruct (pool w !! t) as [tk0|] eqn:Ht0.
    2: { apply lookup_ge_None in Ht0. apply lookup_lt_Some in Ht. lia. }
    assert (t < length (pool w)) by (by eapply lookup_lt_Some).
    destruct tk0 as [r who cbs fr]; cbn in *.
    destruct fr as [|b [|c p]|s0|o|o]; cbn in Ht;
      try rewrite list_lookup_insert_eq in Ht by done;
      simplify_eq/=.
Qed.

Lemma snapshots_kept_step w ev :
  snapshots_kept w → snapshots_kept (step w ev).
Proof.
  intros Hw t tk s Ht Hf.
  destruct (step_merging w ev t tk s Ht Hf) as [(_ & Hp)|(_ & Ht0)].
  - exists []. by rewrite step_chat_ctx, Hp, app_nil_r.
  - destruct (Hw t tk s Ht0 Hf) as [later Hc].
    destruct (step_grows w ev) as (new & -> & _).
    exists (later ++ new). by rewrite Hc, app_assoc.
Qed.

Lemma snapshots_kept_exec evs : ∀ w,
  snapshots_kept w → snapshots_kept (exec w evs).
Proof.
  induction evs as [|ev evs IH]; intros w Hw; [done|].
  rewrite exec_cons. by apply IH, snapshots_kept_step.
Qed.

Lemma snapshots_kept_session ctx : snapshots_kept (session ctx).
Proof. intros t tk s Ht. by rewrite session_unfold in Ht. Qed.

Lemma prints_kept_step ctx0 w ev :
  prints_kept ctx0 w → prints_kept ctx0 (step w ev).
Proof.
  intros [(new0 & Hc & Hi) Hw].
  destruct (step_grows w ev) as (new & Hs & Hn & _). split.
  - exists (new0 ++ new). rewrite Hs, Hc, app_assoc. split; [done|].
    by apply Forall_app.
  - rewrite step_stdout. apply Forall_app. split.
    + eapply Forall_impl; [exact Hw|]. cbn.
      intros c (old & later & -> & Ho & Hl).
      exists old, (later ++ new). rewrite Hs, Hl, app_assoc. by split_and!.
    + destruct (printed w ev) as [c|] eqn:Hp; cbn; [|apply Forall_nil_2].
      apply Forall_singleton.
      assert (c = chat_ctx w) as ->.
      { destruct ev as [| t |]; cbn in Hp; try done.
        destruct (frame_of w t) as [[]|]; by simplify_eq. }
      exists new0, new. by split_and!.
Qed.

Lemma prints_kept_exec ctx0 evs : ∀ w,
  prints_kept ctx0 w → prints_kept ctx0 (exec w evs).
Proof.
  induction evs as [|ev evs IH]; intros w Hw; [done|].
  rewrite exec_cons. by apply IH, prints_kept_step.
Qed.

(** X6: what line 156 has printed is never taken back.  In every state
    that a session started on the context [ctx] reaches, every context that
    has been printed is [ctx] followed by image messages, and the current
    context begins with it. *)
Theorem printed_contexts_are_kept ctx evs :
  let w := exec (session ctx) evs in
  Forall (λ c, ∃ new later,
            c = ctx ++ new ∧ Forall is_image_message new ∧
            chat_ctx w = c ++ later) (stdout w).
Proof.
  intros w. apply (prints_kept_exec ctx evs (session ctx)). split.
  - exists []. rewrite session_unfold, app_nil_r. split; [done|].
    apply Forall_nil_2.
  - rewrite session_unfold. apply Forall_nil_2.
Qed.

(** X7: image ingestion never drops or alters the conversation it started
    from, and adds nothing but image messages.  In every state that a
    session started on [ctx] reaches, whatever the interleaving, the
    context is [ctx] followed by messages built on lines 147-154. *)
Theorem conversation_is_kept ctx evs :
  ∃ new, chat_ctx (exec (session ctx) evs) = ctx ++ new ∧
         Forall is_image_message new.
Proof. apply (exec_grows evs (session ctx)). Qed.

(** X8: every call of line 155 is accounted for.  In every state that a
    session started on [ctx] reaches, the context holds one new message for
    each call of line 155 that has been made: one for each merge done, and
    one for each call that raised. *)
Theorem every_call_is_accounted_for ctx evs :
  let w := exec (session ctx) evs in
  length (chat_ctx w) =
  length ctx + merged w + update_failures (session ctx) evs.
Proof.
  intros w. pose proof (exec_conserves evs (session ctx)) as H.
  fold w in H. rewrite session_unfold in H at 1 2.
  change (merged (mkWorld _ _ _ _ _ _ _)) with 0 in H.
  cbn [chat_ctx] in H. lia.
Qed.

Lemma exec_handlers evs : ∀ w, handlers (exec w evs) = handlers w.
Proof.
  induction evs as [|ev evs IH]; intros w; [done|].
  by rewrite exec_cons, IH, step_handlers.
Qed.

(** X9: only the channel "test" of line 133 is listened to.  In every state
    that a session reaches, a stream announced on "test" creates exactly
    one task, and a stream announced on any other channel changes
    nothing. *)
Theorem only_the_test_channel_is_served ctx evs topic r who :
  let w := exec (session ctx) evs in
  (topic = "test" →
   pool (step w (Incoming topic r who)) = pool w ++ [new_task r who]) ∧
  (topic ≠ "test" → step w (Incoming topic r who) = w).
Proof.
  intros w.
  assert (handlers w = [("test", on_enter_closure)]) as Hh.
  { unfold w. by rewrite exec_handlers, session_unfold. }
  clearbody w. split; intros Ht; cbn [step]; rewrite dispatch_spec, Hh.
  - by rewrite filter_cons_True by done.
  - rewrite filter_cons_False by (cbn; congruence). cbn.
    rewrite !app_nil_r, <- Hh. by destruct w.
Qed.

Lemma frame_ok_step w ev :
  Forall frame_ok (pool w) → Forall frame_ok (pool (step w ev)).
Proof.
  intros Hw. destruct ev as [topic r who|t|t e]; cbn.
  - rewrite dispatch_spec; cbn. apply Forall_app. split; [done|].
    by apply Forall_replicate.
  - destruct (pool w !! t) as [tk|] eqn:Ht; [|done].
    pose proof (Forall_lookup_1 _ _ _ _ Hw Ht) as Hok.
    destruct tk as [r who cbs fr]. unfold frame_ok in Hok; cbn in Hok.
    destruct fr as [|b [|c p]|s|o|o]; cbn;
      try destruct (info_name r) eqn:Hn; cbn;
      rewrite ?(proj1 (proj2 (run_callbacks_fields _ _ _)));
      try done; apply Forall_insert; try done; unfold frame_ok; cbn;
      first [by rewrite app_nil_r in Hok; subst b; eexists
            |by rewrite <- app_assoc].
  - destruct (pool w !! t) as [tk|] eqn:Ht; [|done].
    destruct tk as [r who cbs fr].
    destruct fr as [|b p|s|o|o]; cbn; try done;
      try destruct p; by apply Forall_insert.
Qed.

Lemma frame_ok_exec evs : ∀ w,
  Forall frame_ok (pool w) → Forall frame_ok (pool (exec w evs)).
Proof.
  induction evs as [|ev evs IH]; intros w Hw; [done|].
  rewrite exec_cons. by apply IH, frame_ok_step.
Qed.

(** X10: no task ever holds a byte that is not its own.  In every state
    that a session reaches, every draining task's buffer followed by its
    reader's remaining chunks is the reader's whole payload (nothing lost,
    duplicated or taken from another stream so far), and every snapshot
    waiting on line 155 ends with the message of its task's whole
    payload. *)
Theorem buffers_hold_own_chunks ctx evs :
  Forall frame_ok (pool (exec (session ctx) evs)).
Proof.
  apply frame_ok_exec. rewrite session_unfold. apply Forall_nil_2.
Qed.

(** ** The life of one task *)

Lemma step_retired w ev t tk o :
  pool w !! t = Some tk → t_frame tk = Retired o → wakes t ev → step w ev = w.
Proof.
  intros Ht Hf Hw%wakes_target.
  destruct ev as [topic r who|t'|t' e]; simplify_eq/=; rewrite Ht;
    unfold _image_received; by rewrite Hf.
Qed.

(** X11: a retired task is done for good.  Once the done callback of a task
    has run, every later event addressed to the task changes nothing (the
    interleaving has the effect of its other events alone), the task keeps
    its outcome, and its handle never comes back into [self._tasks]. *)
Theorem retired_is_final w t tk o evs :
  tracked_ok w → pool w !! t = Some tk → t_frame tk = Retired o →
  exec w evs = exec w (others t evs) ∧
  pool (exec w evs) !! t = Some tk ∧
  t ∉ _tasks (exec w evs).
Proof.
  intros Hok Ht Hf.
  assert (exec w evs = exec w (others t evs) ∧
          pool (exec w evs) !! t = Some tk) as [He Hp].
  { clear Hok. revert w Ht. induction evs as [|ev evs IH]; intros w Ht; [done|].
    destruct (decide (wakes t ev)) as [Hw|Hw].
    - rewrite others_cons_True, exec_cons by done.
      rewrite (step_retired w ev t tk o Ht Hf Hw). by apply IH.
    - rewrite others_cons_False, !exec_cons by done.
      by apply IH, step_not_woken. }
  split_and!; [done..|].
  eapply retired_not_tracked; [by apply tracked_ok_exec|done..].
Qed.

Lemma retired_is_final_witness :
  let w := exec Sample.announced Sample.in_turn in
  let evs := [Run 0; Fail 0 (Exception "late");
              Incoming "test" Sample.bob "bob"; Run 2; Run 0] in
  exec w evs = exec w (others 0 evs) ∧
  pool (exec w evs) !! 0 =
    Some (with_frame (Retired None) (new_task Sample.alice "alice")) ∧
  0 ∉ _tasks (exec w evs).
Proof.
  apply (retired_is_final (exec Sample.announced Sample.in_turn) 0
           (with_frame (Retired None) (new_task Sample.alice "alice")) None).
  - apply tracked_ok_exec, tracked_ok_exec, tracked_ok_session.
  - reflexivity.
  - reflexivity.
Defined.

Lemma phase_created_raises t e evs : ∀ w1 w2 tk,
  same_but t w1 w2 → pool w1 !! t = Some tk → t_frame tk = Created →
  info_name (t_reader tk) = Raise e →
  t_callbacks tk = [remove_from_tasks] →
  own t evs = [Run t; Run t] →
  same_but t (exec w1 evs) (exec w2 (others t evs)) ∧
  pool (exec w1 evs) !! t = Some (with_frame (Retired (Some e)) tk).
Proof.
  induction evs as [|ev evs IH];
    intros w1 w2 tk Hsb Ht Hf Hn Hcb Hown; [done|].
  destruct (decide (wakes t ev)) as [Hw|Hw].
  - rewrite own_cons_True in Hown by done. injection Hown as -> Hown.
    rewrite others_cons_True, exec_cons by done.
    apply (phase_finished t evs _ w2 (with_frame (Finished (Some e)) tk)
             (Some e));
      [|rewrite (run_created_raises w1 t tk Ht e Hf Hn);
        by apply (lookup_set_frame w1)|done..].
    apply same_but_step_own; [done..| |].
    + apply (publishes_frame w1 t tk Ht). intros s. by rewrite Hf.
    + apply (printed_frame w1 t tk Ht). intros s. by rewrite Hf.
  - rewrite own_cons_False in Hown by done.
    rewrite others_cons_False, !exec_cons by done.
    apply (IH _ _ tk); [|by apply step_not_woken|done..].
    by apply same_but_step_other, not_wakes_target.
Qed.

(** X12: a task that fails on line 140 is retired like any other.  For a
    task whose read of [reader.info.name] raises [e], once it has been
    started and its done callback has run, with any events of other
    streams and tasks in between: the task is retired with [e] as its
    outcome, its handle is out of [self._tasks], and the context is what
    the other events alone produce. *)
Theorem metadata_failure_is_retired w t tk e evs :
  tracked_ok w → pool w !! t = Some tk → t_frame tk = Created →
  info_name (t_reader tk) = Raise e →
  own t evs = [Run t; Run t] →
  let w' := exec w evs in
  frame_of w' t = Some (Retired (Some e)) ∧
  (t ∉ _tasks w') ∧
  chat_ctx w' = chat_ctx (exec w (others t evs)).
Proof.
  intros Hok Ht Hf Hn Hown w'.
  destruct (phase_created_raises t e evs w w tk (same_but_refl t w) Ht Hf Hn
              (tracked_callbacks w Hok t tk Ht) Hown)
    as [(Hc & _) Hr].
  fold w' in Hc, Hr. split_and!.
  - by eapply frame_of_with_frame.
  - eapply (retired_not_tracked w' t _ (Some e)); [|done..].
    by apply tracked_ok_exec.
  - done.
Qed.

Lemma metadata_failure_witness :
  let evs := [Incoming "test" Sample.bob "bob"; Run 0; Run 1; Run 1; Run 0] in
  let w' := exec Faulty.announced evs in
  frame_of w' 0 = Some (Retired (Some (Exception "no stream info"))) ∧
  (0 ∉ _tasks w') ∧
  chat_ctx w' = chat_ctx (exec Faulty.announced (others 0 evs)).
Proof.
  apply (metadata_failure_is_retired Faulty.announced 0
           (new_task Faulty.carol "carol") (Exception "no stream info")).
  - apply tracked_ok_exec, tracked_ok_session.
  - reflexivity.
  - reflexivity.
  - reflexivity.
  - reflexivity.
Defined.

Lemma list_remove_app_new (x : nat) (l : list nat) :
  x ∉ l → list_remove x (l ++ [x]) = Some l.
Proof.
  induction l as [|y l IH]; intros Hx; simpl.
  - by rewrite decide_True.
  - rewrite decide_False by (intros ->; apply Hx; left).
    rewrite IH; [done|]. intros ?; apply Hx; by right.
Qed.

Lemma set_frame_twice t tk f1 f2 w :
  set_frame t (with_frame f1 tk) f2 (set_frame t tk f1 w) = set_frame t tk f2 w.
Proof.
  unfold set_frame, with_pool; cbn. f_equal. apply list_insert_insert_eq.
Qed.

Lemma set_frame_same w t tk :
  pool w !! t = Some tk → set_frame t tk (t_frame tk) w = w.
Proof.
  intros Ht. unfold set_frame, with_pool.
  rewrite with_frame_id, list_insert_id by done. by destruct w.
Qed.

(** A task left alone in the loop of lines 143-144 takes one resumption for
    each chunk and ends with all of them in its buffer. *)
Lemma drain_alone t p : ∀ b w tk,
  pool w !! t = Some tk → t_frame tk = Draining b p →
  exec w (replicate (length p) (Run t)) =
    set_frame t tk (Draining (b ++ concat p) []) w.
Proof.
  induction p as [|c p IH]; intros b w tk Ht Hf.
  - cbn. rewrite app_nil_r, <- Hf. by rewrite set_frame_same.
  - cbn [length replicate]. rewrite exec_cons.
    rewrite (run_chunk w t tk Ht b c p Hf).
    rewrite (IH (b ++ c) _ (with_frame (Draining (b ++ c) p) tk));
      [|by apply (lookup_set_frame w)|done].
    rewrite set_frame_twice. cbn. by rewrite app_assoc.
Qed.

(** X13: one image, from the announcement of its stream to the retirement
    of its task.  For a reader with readable metadata and [n] chunks, the
    task that the handler creates, left alone, is done after [n + 4]
    resumptions (start, one per chunk, the call of line 155, its return,
    the done callback): the
    context has gained the message of the chunks' concatenation, the info
    line is logged, the new context is printed, the task is retired with no
    exception, and the tracking list and everything else are as before. *)
Theorem unit_alone_completes w r who name :
  tracked_ok w → info_name r = Ok name →
  let t := length (pool w) in
  let ctx' := chat_ctx w ++ [image_message (concat (chunks r))] in
  exec (_image_received_handler r who w)
       (replicate (length (chunks r) + 4) (Run t)) =
  mkWorld ctx' (_tasks w)
          (pool w ++ [with_frame (Retired None) (new_task r who)])
          (handlers w) (log w ++ [LogInfo who name]) (stdout w ++ [ctx'])
          (replies w).
Proof.
  intros Hok Hn t ctx'.
  assert (t ∉ _tasks w) as Hfresh.
  { intros (tk & Ht & _)%(tracked_iff w Hok).
    apply lookup_lt_Some in Ht. unfold t in Ht. lia. }
  set (nt := new_task r who).
  pose (W := λ f c l o,
          mkWorld c (_tasks w ++ [t]) (pool w ++ [with_frame f nt])
                  (handlers w) l o (replies w)).
  assert (∀ f0 f c l o,
            set_frame t (with_frame f0 nt) f (W f0 c l o) = W f c l o) as HW.
  { intros. unfold W, set_frame, with_pool.
    cbn [chat_ctx _tasks pool handlers log stdout replies].
    rewrite insert_app_r_alt, Nat.sub_diag by (unfold t; lia). reflexivity. }
  assert (∀ f c l o, pool (W f c l o) !! t = Some (with_frame f nt)) as HL.
  { intros. by apply list_lookup_middle. }
  rewrite image_received_handler_spec.
  change (mkWorld _ _ _ _ _ _ _)
    with (W Created (chat_ctx w) (log w) (stdout w)) at 1.
  replace (length (chunks r) + 4) with (S (length (chunks r) + 3)) by lia.
  rewrite replicate_S, exec_cons, replicate_add, exec_app.
  rewrite (run_created _ t _ (HL _ _ _ _) name eq_refl Hn).
  change (logger _ (W Created (chat_ctx w) (log w) (stdout w)))
    with (W Created (chat_ctx w) (log w ++ [LogInfo who name]) (stdout w)).
  rewrite HW.
  rewrite (drain_alone t (chunks r) [] _ _ (HL _ _ _ _) eq_refl), HW.
  cbn [replicate]. rewrite !exec_cons. cbn [exec foldl].
  rewrite (run_exhausted _ t _ (HL _ _ _ _) _ eq_refl).
  change (update_chat_ctx ?s (W ?f ?c ?l ?o)) with (W f s l o).
  rewrite HW.
  rewrite (run_merging _ t _ (HL _ _ _ _) _ eq_refl).
  change (print ?s (W ?f ?c ?l ?o)) with (W f c l (o ++ [s])).
  rewrite HW.
  rewrite (run_finished _ t _ (HL _ _ _ _) None eq_refl eq_refl).
  unfold run_callback. cbn [_tasks W].
  rewrite (list_remove_app_new _ _ Hfresh).
  unfold W, set_frame, with_pool, with_tasks.
  cbn [chat_ctx _tasks pool handlers log stdout replies].
  rewrite insert_app_r_alt, Nat.sub_diag by (unfold t; lia). reflexivity.
Qed.

Lemma unit_alone_witness :
  let w := session [] in
  let ctx' := chat_ctx w ++ [image_message [x89; "P"; "N"; "G"; "A"; "B"]%byte] in
  exec (_image_received_handler Sample.alice "alice" w)
       (replicate (2 + 4) (Run 0)) =
  mkWorld ctx' (_tasks w)
          (pool w ++ [with_frame (Retired None) (new_task Sample.alice "alice")])
          (handlers w) (log w ++ [LogInfo "alice" "a.png"]) (stdout w ++ [ctx'])
          (replies w).
Proof.
  apply (unit_alone_completes (session []) Sample.alice "alice" "a.png").
  - apply tracked_ok_session.
  - reflexivity.
Defined.

(** ** Overlapping merges *)

(** X14: line 156 shows the image of the task that prints.  In every state
    that a session reaches, a task suspended in the call of line 155 passed
    it a snapshot that ends with the message of its own reader's chunks,
    the context still begins with that snapshot, however many other tasks
    have made the call since, and when the task is resumed it prints that
    context, leaves it as it is and returns. *)
Theorem print_shows_own_image ctx evs t tk s :
  pool (exec (session ctx) evs) !! t = Some tk → t_frame tk = Merging s →
  let w := exec (session ctx) evs in
  ∃ base later,
    s = base ++ [image_message (concat (chunks (t_reader tk)))] ∧
    chat_ctx w = s ++ later ∧
    stdout (step w (Run t)) = stdout w ++ [s ++ later] ∧
    chat_ctx (step w (Run t)) = s ++ later ∧
    frame_of (step w (Run t)) t = Some (Finished None).
Proof.
  intros Ht Hf w. fold w in Ht.
  assert (Forall frame_ok (pool w)) as Hok.
  { apply frame_ok_exec. rewrite session_unfold. apply Forall_nil_2. }
  pose proof (Forall_lookup_1 _ _ _ _ Hok Ht) as Hfr.
  unfold frame_ok in Hfr. rewrite Hf in Hfr. destruct Hfr as [base Hb].
  destruct (snapshots_kept_exec evs _ (snapshots_kept_session ctx) t tk s
              Ht Hf) as [later Hl].
  fold w in Hl. exists base, later.
  rewrite (run_merging w t tk Ht s Hf). split_and!; [done|done| | |].
  - cbn. by rewrite Hl.
  - done.
  - eapply frame_of_with_frame. by apply (lookup_set_frame w).
Qed.

Lemma print_shows_own_image_witness :
  let mA := image_message [x89; "P"; "N"; "G"; "A"; "B"]%byte in
  let w := exec (session []) Overlap.both_waiting in
  ∃ base later,
    [mA] = base ++ [image_message (concat (chunks Sample.alice))] ∧
    chat_ctx w = [mA] ++ later ∧
    stdout (step w (Run 0)) = stdout w ++ [[mA] ++ later] ∧
    chat_ctx (step w (Run 0)) = [mA] ++ later ∧
    frame_of (step w (Run 0)) 0 = Some (Finished None).
Proof.
  apply (print_shows_own_image
           [] Overlap.both_waiting 0
           (with_frame
              (Merging [image_message [x89; "P"; "N"; "G"; "A"; "B"]%byte])
              (new_task Sample.alice "alice"))
           [image_message [x89; "P"; "N"; "G"; "A"; "B"]%byte]);
    reflexivity.
Defined.

(** ** Tasks keep their stream *)

Lemma step_keeps_task w ev t tk :
  pool w !! t = Some tk → ∃ f, pool (step w ev) !! t = Some (with_frame f tk).
Proof.
  intros Ht. assert (t < length (pool w)) by (by eapply lookup_lt_Some).
  destruct (decide (wakes t ev)) as [Hw|Hw].
  2: { exists (t_frame tk). rewrite with_frame_id. by apply step_not_woken. }
  apply wakes_target in Hw.
  destruct ev as [topic r who|t'|t' e]; simplify_eq/=; rewrite Ht.
  - destruct (t_frame tk) eqn:Hf;
      try (destruct (image_received_pool w t tk Value) as [->|[f ->]];
           [exists (t_frame tk); by rewrite with_frame_id
           |exists f; by apply list_lookup_insert_eq]).
    eexists. apply list_lookup_insert_eq.
    by rewrite (proj1 (proj2 (run_callbacks_fields _ _ _))).
  - destruct (image_received_pool w t tk (Throw e)) as [->|[f ->]];
      [exists (t_frame tk); by rewrite with_frame_id
      |exists f; by apply list_lookup_insert_eq].
Qed.

(** X15: a task keeps its stream.  Whatever happens in a session, a task
    that exists keeps existing under the same handle, with the reader, the
    participant identity and the done callback it was created with; only
    its frame moves. *)
Theorem task_keeps_its_stream w t tk evs :
  pool w !! t = Some tk →
  ∃ f, pool (exec w evs) !! t = Some (with_frame f tk).
Proof.
  revert w tk. induction evs as [|ev evs IH]; intros w tk Ht.
  - exists (t_frame tk). by rewrite with_frame_id.
  - rewrite exec_cons. destruct (step_keeps_task w ev t tk Ht) as [f Hf].
    destruct (IH _ _ Hf) as [f' Hf']. by exists f'.
Qed.

Lemma task_keeps_its_stream_witness :
  ∃ f, pool (exec Sample.announced Sample.racing) !! 0 =
         Some (with_frame f (new_task Sample.alice "alice")).
Proof.
  apply (task_keeps_its_stream Sample.announced 0
           (new_task Sample.alice "alice") Sample.racing).
  reflexivity.
Defined.
